(** * ONNX graph manipulation of the FINN tutorials

    A shallow embedding of the code cells of
    [FINN-tutorials/Basics/0_how_to_work_with_onnx_.ipynb] (building a small
    ONNX graph, finding chained adders and replacing them by one [Sum] node)
    and of the input preparation of
    [FINN-tutorials/MLP/2_import_into_finn_and_verify.ipynb]. *)

From stdpp Require Import base option list strings gmap vector.
From Stdlib Require Import ZArith Lia.

Local Open Scope string_scope.
Local Open Scope list_scope.

(** ** Data model: the protobuf messages the notebook touches *)

(** [onnx.NodeProto]: the fields set by [onnx.helper.make_node]. Python
    compares protobuf messages by value, which is Rocq's equality here. *)
Record NodeProto := make_node {
  op_type : string;
  input : list string;
  output : list string;
  name : string
}.

#[global] Instance NodeProto_eq_dec : EqDecision NodeProto.
Proof. solve_decision. Defined.

(** [onnx.TensorProto] element types; the notebook only uses [FLOAT]. *)
Inductive TensorType := FLOAT | INT64.

#[global] Instance TensorType_eq_dec : EqDecision TensorType.
Proof. solve_decision. Defined.

(** [onnx.helper.make_tensor_value_info name elem_type shape]. *)
Record ValueInfoProto := make_tensor_value_info {
  vi_name : string;
  elem_type : TensorType;
  shape : list Z
}.

(** [onnx.helper.make_graph nodes name inputs outputs value_info]. *)
Record GraphProto := make_graph {
  node : list NodeProto;
  graph_name : string;
  graph_input : list ValueInfoProto;
  graph_output : list ValueInfoProto;
  value_info : list ValueInfoProto
}.

(** [qonnx_make_model graph producer_name] copies the graph into a model. *)
Record ModelProto := qonnx_make_model {
  graph : GraphProto;
  producer_name : string
}.

(** [ModelWrapper onnx_model]: a thin wrapper; [model.graph] is the wrapped
    model's graph. *)
Record ModelWrapper := wrap_model { model_proto : ModelProto }.

Definition wgraph (model : ModelWrapper) : GraphProto := graph (model_proto model).

(** ** The example graph of the notebook (cells 1 to 5) *)

Definition Add1_node : NodeProto := make_node "Add" ["in1"; "in2"] ["sum1"] "Add1".
Definition Add2_node : NodeProto := make_node "Add" ["sum1"; "in3"] ["sum2"] "Add2".
Definition Add3_node : NodeProto := make_node "Add" ["abs1"; "abs1"] ["sum3"] "Add3".
Definition Abs_node : NodeProto := make_node "Abs" ["sum2"] ["abs1"] "Abs".
Definition Round_node : NodeProto := make_node "Round" ["sum3"] ["out1"] "Round".

Definition in1 : ValueInfoProto := make_tensor_value_info "in1" FLOAT [4; 4]%Z.
Definition in2 : ValueInfoProto := make_tensor_value_info "in2" FLOAT [4; 4]%Z.
Definition in3 : ValueInfoProto := make_tensor_value_info "in3" FLOAT [4; 4]%Z.
Definition out1 : ValueInfoProto := make_tensor_value_info "out1" FLOAT [4; 4]%Z.

Definition simple_graph : GraphProto :=
  make_graph
    [Add1_node; Add2_node; Abs_node; Add3_node; Round_node]
    "simple_graph"
    [in1; in2; in3]
    [out1]
    [ make_tensor_value_info "sum1" FLOAT [4; 4]%Z;
      make_tensor_value_info "sum2" FLOAT [4; 4]%Z;
      make_tensor_value_info "abs1" FLOAT [4; 4]%Z;
      make_tensor_value_info "sum3" FLOAT [4; 4]%Z ].

Definition onnx_model : ModelProto := qonnx_make_model simple_graph "simple-model".
Definition finn_model : ModelWrapper := wrap_model onnx_model.

(** ** Helper functions of the notebook *)

(** [get_node_id] (cell 14): a dictionary from node name to node index; a
    later node of the same name overwrites the entry of an earlier one. *)
Definition get_node_id (model : ModelWrapper) : gmap string nat :=
  (foldl (fun '(node_index, node_ind) n => (<[name n := node_ind]> node_index, S node_ind))
         (∅, 0) (node (wgraph model))).1.

(** [identify_adder_nodes] (cell 15). *)
Definition identify_adder_nodes (model : ModelWrapper) : list NodeProto :=
  foldl (fun add_nodes n => if String.eqb (op_type n) "Add" then add_nodes ++ [n] else add_nodes)
        [] (node (wgraph model)).

(** Modelled from the spec: [ModelWrapper.find_consumers] belongs to the
    QONNX library and is not part of the notebooks; section 4.1 describes it
    as all nodes whose input list contains the tensor, in graph node order. *)
Definition find_consumers (model : ModelWrapper) (tensor : string) : list NodeProto :=
  filter (fun n => tensor ∈ input n) (node (wgraph model)).

(** Modelled from the spec: [ModelWrapper.find_direct_successors] belongs to
    the QONNX library; section 4.1 describes it as the union, in port order
    then node order, of the consumers of each of the node's outputs. A
    consumer reached through several outputs is listed once, at its first
    occurrence. *)
Definition find_direct_successors (model : ModelWrapper) (n : NodeProto) : list NodeProto :=
  foldl (fun successors outp_tensor =>
           successors ++ filter (fun c => c ∉ successors) (find_consumers model outp_tensor))
        [] (output n).

(** [adder_pair] (cell 17). The temporary [node_pair] is empty at the start
    of every iteration, so each appended pair is the two-element list
    [[node; successor]]. *)
Definition adder_pair (model : ModelWrapper) (n : NodeProto) : list (list NodeProto) :=
  foldl (fun adder_pairs successor =>
           if String.eqb (op_type successor) "Add"
           then adder_pairs ++ [[] ++ [n] ++ [successor]]
           else adder_pairs)
        [] (find_direct_successors model n).

(** The search loop of cell 18: [substitute_pair] is rebound for every pair
    found, so after the loop it holds the last pair of the last adder that
    has one. [None] stands for the variable never having been bound. *)
Definition find_substitute_pair (model : ModelWrapper) (add_nodes : list NodeProto)
  : option (list NodeProto) :=
  foldl (fun substitute_pair n =>
           let add_pairs := adder_pair model n in
           if negb (length add_pairs =? 0)%nat
           then foldl (fun _ i => add_pairs !! i) substitute_pair (seq 0 (length add_pairs))
           else substitute_pair)
        None add_nodes.

(** Every pair found by the loop of cell 18, in the order it prints them. *)
Definition all_adder_pairs (model : ModelWrapper) (add_nodes : list NodeProto)
  : list (list NodeProto) :=
  flat_map (adder_pair model) add_nodes.

(** ** Building the replacement node (cells 19 to 21) *)

(** [n.output[0]]; [None] is Python's [IndexError]. *)
Definition output0 (n : NodeProto) : option string := output n !! 0%nat.

(** The inner loops of cell 19: every input of [this] that differs from
    [other.output[0]] is appended. The comparison, and with it the lookup of
    the other node and of its first output, is evaluated once per input. *)
Definition append_inputs (other : option NodeProto) (this : NodeProto)
    (input_list : list string) : option (list string) :=
  foldl (fun acc x =>
           l ← acc;
           o ← other ≫= output0;
           Some (if String.eqb x o then l else l ++ [x]))
        (Some input_list) (input this).

(** Cell 19: index 0 is filtered against its right neighbour, every other
    index against its left neighbour. *)
Definition input_list (substitute_pair : list NodeProto) : option (list string) :=
  foldl (fun acc i =>
           l ← acc;
           this ← substitute_pair !! i;
           if (i =? 0)%nat
           then append_inputs (substitute_pair !! (i + 1)%nat) this l
           else append_inputs (substitute_pair !! (i - 1)%nat) this l)
        (Some []) (seq 0 (length substitute_pair)).

(** Cell 20. *)
Definition sum_output (substitute_pair : list NodeProto) : option string :=
  substitute_pair !! 1%nat ≫= output0.

(** Cell 21. *)
Definition Sum_node (substitute_pair : list NodeProto) : option NodeProto :=
  ins ← input_list substitute_pair;
  out ← sum_output substitute_pair;
  Some (make_node "Sum" ins [out] "Sum").

(** ** Splicing the node into the graph (cell 22) *)

(** [graph.node.insert(i, x)] for [i >= 0]; past the end it appends. *)
Definition list_insert_at {A} (i : nat) (x : A) (l : list A) : list A :=
  take i l ++ x :: drop i l.

(** [graph.node.remove(x)]: drops the first element equal to [x]; [None] is
    Python's [ValueError] when there is none. *)
Fixpoint list_remove_first (x : NodeProto) (l : list NodeProto) : option (list NodeProto) :=
  match l with
  | [] => None
  | y :: l' => if decide (y = x) then Some l' else (y ::.) <$> list_remove_first x l'
  end.

Definition set_node (g : GraphProto) (ns : list NodeProto) : GraphProto :=
  make_graph ns (graph_name g) (graph_input g) (graph_output g) (value_info g).

(** Cell 22. The index is looked up in the wrapper [model], the edit is
    made on the notebook's own [graph] object, of which the wrapper holds a
    copy. *)
Definition replace_pair (model : ModelWrapper) (g : GraphProto)
    (substitute_pair : list NodeProto) (new_node : NodeProto) : option GraphProto :=
  let node_ids := get_node_id model in
  first ← substitute_pair !! 0%nat;
  node_ind ← node_ids !! name first;
  let inserted := list_insert_at node_ind new_node (node g) in
  ns ← foldl (fun acc n => l ← acc; list_remove_first n l) (Some inserted) substitute_pair;
  Some (set_node g ns).

(** Cells 16 to 23 in sequence, on a graph [g] wrapped as the notebook does. *)
Definition fuse_adders (g : GraphProto) : option GraphProto :=
  let model := wrap_model (qonnx_make_model g "simple-model") in
  let add_nodes := identify_adder_nodes model in
  substitute_pair ← find_substitute_pair model add_nodes;
  new_node ← Sum_node substitute_pair;
  replace_pair model g substitute_pair new_node.

Definition fused_node : NodeProto := make_node "Sum" ["in1"; "in2"; "in3"] ["sum2"] "Sum".

(** ** Input preparation of the MLP verification notebook *)

(** A numpy array: its shape and its elements in row-major order. The
    dataset rows hold the float32 values 0.0 and 1.0, on which doubling and
    subtracting one is exact, so elements are integers here. *)
Record ndarray := mk_ndarray {
  nd_shape : list Z;
  nd_data : list Z
}.

(** The rows of a two-dimensional array with [r] rows of [c] columns. *)
Fixpoint rows_of (r c : nat) (data : list Z) : list (list Z) :=
  match r with
  | O => []
  | S r' => take c data :: rows_of r' c (drop c data)
  end.

(** [np.pad(a, [(b0, a0), (b1, a1)])] with the default mode, constant zero,
    on a two-dimensional array; [None] is the [ValueError] numpy raises when
    the array does not have two axes. *)
Definition np_pad (a : ndarray) (pad_width : (nat * nat) * (nat * nat)) : option ndarray :=
  let '((b0, a0), (b1, a1)) := pad_width in
  match nd_shape a with
  | [r; c] =>
      let width := (b1 + Z.to_nat c + a1)%nat in
      let rows := map (fun row => replicate b1 0%Z ++ row ++ replicate a1 0%Z)
                      (rows_of (Z.to_nat r) (Z.to_nat c) (nd_data a)) in
      Some (mk_ndarray
              [Z.of_nat b0 + r + Z.of_nat a0; Z.of_nat b1 + c + Z.of_nat a1]%Z
              (concat (replicate b0 (replicate width 0%Z) ++ rows
                       ++ replicate a0 (replicate width 0%Z))))
  | _ => None
  end.

(** [2*a-1], element by element. *)
Definition rescale_bipolar (a : ndarray) : ndarray :=
  mk_ndarray (nd_shape a) (map (fun x => 2 * x - 1)%Z (nd_data a)).

(** [a.reshape(shape)] for a shape of non-negative extents: the elements
    stay, the shape changes; [None] is numpy's [ValueError] when the sizes
    differ. (Registry shapes hold no [-1] placeholder.) *)
Definition reshape (a : ndarray) (new_shape : list Z) : option ndarray :=
  if forallb (fun d => 0 <=? d)%Z new_shape
     && (foldr Z.mul 1%Z new_shape =? Z.of_nat (length (nd_data a)))%Z
  then Some (mk_ndarray new_shape (nd_data a))
  else None.

(** Modelled from the spec: [ModelWrapper.get_tensor_shape] belongs to the
    QONNX library; section 4.1 describes it as the registry accessor for the
    shape recorded under a tensor name. *)
Definition get_tensor_shape (model : ModelWrapper) (tensor : string) : option (list Z) :=
  shape <$> head (filter (fun vi => vi_name vi = tensor)
                         (graph_input (wgraph model) ++ graph_output (wgraph model)
                          ++ value_info (wgraph model))).

Section Inference.
(** [finn.core.onnx_exec.execute_onnx], the external executor. *)
Variable execute_onnx : ModelWrapper → gmap string ndarray → option (gmap string ndarray).

(** [inference_with_finn_onnx] (cell 13 of the MLP notebook); the
    conversion from a torch tensor to a numpy array changes no value. *)
Definition inference_with_finn_onnx (model_for_sim : ModelWrapper) (current_inp : ndarray)
  : option ndarray :=
  finnonnx_in_tensor_name ← vi_name <$> graph_input (wgraph model_for_sim) !! 0%nat;
  finnonnx_model_in_shape ← get_tensor_shape model_for_sim finnonnx_in_tensor_name;
  finnonnx_out_tensor_name ← vi_name <$> graph_output (wgraph model_for_sim) !! 0%nat;
  current_inp ← np_pad current_inp ((0, 0), (0, 7))%nat;
  let current_inp := rescale_bipolar current_inp in
  current_inp ← reshape current_inp finnonnx_model_in_shape;
  let input_dict : gmap string ndarray := {[ finnonnx_in_tensor_name := current_inp ]} in
  output_dict ← execute_onnx model_for_sim input_dict;
  output_dict !! finnonnx_out_tensor_name.
End Inference.

(** The interface of the exported MLP as the notebook prints it: input
    [global_in] of shape [1, 600], output [global_out] of shape [1, 1]. *)
Definition mlp_interface : ModelWrapper :=
  wrap_model (qonnx_make_model
    (make_graph [] "cybsec-mlp"
       [make_tensor_value_info "global_in" FLOAT [1; 600]%Z]
       [make_tensor_value_info "global_out" FLOAT [1; 1]%Z] [])
    "cybsec-mlp").

(** A row of the binarized dataset is an array of shape [1, 593] with
    entries 0 or 1. *)
Definition is_binary_row (a : ndarray) : bool :=
  bool_decide (nd_shape a = [1; 593]%Z)
  && (length (nd_data a) =? 593)%nat
  && forallb (fun x => (x =? 0)%Z || (x =? 1)%Z) (nd_data a).

(** ** Executing a graph *)

(** Failures of an execution (section 7 of the specification). *)
Inductive exec_error :=
  | ShapeMismatch (tensor : string)
  | ExecutionError (node_name : string).

Inductive result (A : Type) :=
  | Ok (a : A)
  | Err (e : exec_error).
Arguments Ok {A} a.
Arguments Err {A} e.

#[global] Instance result_bind : MBind result := fun A B f r =>
  match r with
  | Ok a => f a
  | Err e => Err e
  end.

(** What a caller gets out of a run: the value, if there is one. *)
Definition outputs_of {A} (r : result A) : option A :=
  match r with
  | Ok a => Some a
  | Err _ => None
  end.

(** Concrete tensor values and the numeric backend: the shape of a value,
    the three numpy operations of the notebook's reference function, and
    the backend's answer for every other operator type (a pure function of
    the operator type and the operand values; [None] is a backend
    failure). *)
Class Numpy (T : Type) := {
  t_shape : T → list Z;
  np_add : T → T → T;
  np_absolute : T → T;
  np_round : T → T;
  np_other : string → list T → option (list T)
}.

Section Execution.
Context {T : Type} {numpy : Numpy T}.

(** [expected_output] (cell 8), the reference function of the notebook. *)
Definition expected_output (in1 in2 in3 : T) : T :=
  let sum1 := np_add in1 in2 in
  let sum2 := np_add sum1 in3 in
  let abs1 := np_absolute sum2 in
  let sum3 := np_add abs1 abs1 in
  np_round sum3.

(** Modelled from the spec: the numeric backend belongs to ONNX Runtime;
    section 6 describes it as a pure function of the operator type and the
    operand values. The operators of the notebook are given their numpy
    meaning, and [Sum] adds its operands from left to right; every other
    operator type is left to the backend. *)
Definition backend (op : string) (args : list T) : option (list T) :=
  if String.eqb op "Add" then
    match args with [x; y] => Some [np_add x y] | _ => None end
  else if String.eqb op "Sum" then
    match args with x :: rest => Some [foldl np_add x rest] | [] => None end
  else if String.eqb op "Abs" then
    match args with [x] => Some [np_absolute x] | _ => None end
  else if String.eqb op "Round" then
    match args with [x] => Some [np_round x] | _ => None end
  else np_other op args.

(** Modelled from the spec: one step of the execution adapter of section
    4.3. The operands are read by name, the backend is called, and the
    results are bound to the node's output names; a failure carries the
    name of the node. *)
Definition exec_node (env : gmap string T) (n : NodeProto) : result (gmap string T) :=
  match mapM (fun i => env !! i) (input n) with
  | None => Err (ExecutionError (name n))
  | Some args =>
      match backend (op_type n) args with
      | None => Err (ExecutionError (name n))
      | Some outs =>
          if (length outs =? length (output n))%nat
          then Ok (foldl (fun e '(o, v) => <[o := v]> e) env (zip (output n) outs))
          else Err (ExecutionError (name n))
      end
  end.

(** Modelled from the spec: nodes are evaluated in graph order. *)
Definition run_nodes (ns : list NodeProto) (env : gmap string T) : result (gmap string T) :=
  foldl (fun r n => env ← r; exec_node env n) (Ok env) ns.

(** The value-level view of a step and of a run: the environment, if the
    step or run succeeds. *)
Definition step (n : NodeProto) (env : gmap string T) : option (gmap string T) :=
  outputs_of (exec_node env n).
Definition run (ns : list NodeProto) (env : gmap string T) : option (gmap string T) :=
  outputs_of (run_nodes ns env).

(** Modelled from the spec: every graph input must be present in the
    input map with the shape of the registry. *)
Definition check_inputs (g : GraphProto) (input_map : gmap string T) : result unit :=
  foldl (fun r vi =>
           _ ← r;
           match input_map !! vi_name vi with
           | Some v => if decide (t_shape v = shape vi) then Ok tt
                       else Err (ShapeMismatch (vi_name vi))
           | None => Err (ShapeMismatch (vi_name vi))
           end)
        (Ok tt) (graph_input g).

(** Modelled from the spec: [execute] of section 4.3, from an input map
    to the map of the designated graph outputs. *)
Definition execute (g : GraphProto) (input_map : gmap string T) : result (gmap string T) :=
  _ ← check_inputs g input_map;
  env ← run_nodes (node g) input_map;
  Ok (filter (fun kv => kv.1 ∈ map vi_name (graph_output g)) env).
End Execution.

(** [x.astype(np.float32)] for an integer value [x]: up to [2^24] in
    magnitude every integer is a float32; beyond, the value is rounded to 24
    significant bits, to the nearest and on a tie to the even one. (From
    [2^128] on a float32 is infinite, which an integer cannot show; no 64-bit
    integer gets there.) *)
Definition astype_float32 (x : Z) : Z :=
  let m := Z.abs x in
  if (m <=? 2 ^ 24)%Z then x
  else
    let e := (Z.log2 m - 23)%Z in
    let q := (m / 2 ^ e)%Z in
    let r := (m mod 2 ^ e)%Z in
    let half := (2 ^ (e - 1))%Z in
    let q' := if (half <? r)%Z || ((r =? half)%Z && Z.odd q) then (q + 1)%Z else q in
    (Z.sgn x * (q' * 2 ^ e))%Z.

(** An instance of the backend: float32 tensors of shape [4, 4], the shape
    of every tensor of the example graph, that hold integers. A float32 sum
    is the exact sum rounded to float32; the absolute value of an integer is
    exact, and rounding an integer changes nothing. The instance knows the
    four operators of the notebook only. *)
Definition tensor44 : Type := vec Z 16.

Definition f32_add (a b : tensor44) : tensor44 :=
  vzip_with (fun x y => astype_float32 (x + y)) a b.
Definition f32_absolute (a : tensor44) : tensor44 := vmap Z.abs a.
Definition f32_round (a : tensor44) : tensor44 := a.

#[global] Instance f32_numpy : Numpy tensor44 := {
  t_shape := fun _ => [4; 4]%Z;
  np_add := f32_add;
  np_absolute := f32_absolute;
  np_round := f32_round;
  np_other := fun _ _ => None
}.

(** The 4x4 tensor with the same entry everywhere. *)
Definition full44 (x : Z) : tensor44 := vreplicate 16 x.

(** ** Well-formedness of a node sequence *)

(** Topological order: no node reads a tensor that it or a later node
    produces. *)
Fixpoint topo_sorted (ns : list NodeProto) : bool :=
  match ns with
  | [] => true
  | n :: rest =>
      forallb (fun i => forallb (fun m => bool_decide (i ∉ output m)) (n :: rest)) (input n)
      && topo_sorted rest
  end.

(** Every tensor has at most one producer. *)
Definition single_producer (ns : list NodeProto) : bool :=
  bool_decide (NoDup (flat_map output ns)).

(** Node names are unique. *)
Definition unique_names (ns : list NodeProto) : bool :=
  bool_decide (NoDup (map name ns)).

(** The precondition of the fusion (section 4.2): the connecting tensor is
    used by the second node only, and is not an output of the graph. *)
Definition no_third_consumer (g : GraphProto) (tensor : string) (consumer : NodeProto) : bool :=
  bool_decide (find_consumers (wrap_model (qonnx_make_model g "")) tensor = [consumer])
  && bool_decide (tensor ∉ map vi_name (graph_output g)).

(** A node with another operator type put in its place. *)
Definition with_op_type (op : string) (n : NodeProto) : NodeProto :=
  make_node op (input n) (output n) (name n).

(** The rewrite of cells 19 to 22 for a given pair. *)
Definition fuse_pair (g : GraphProto) (substitute_pair : list NodeProto) : option GraphProto :=
  new_node ← Sum_node substitute_pair;
  replace_pair (wrap_model (qonnx_make_model g "simple-model")) g substitute_pair new_node.

(** Two environments agree off a list of tensor names. *)
Definition agree_off {T} (X : list string) (e e' : gmap string T) : Prop :=
  ∀ k, k ∉ X → e !! k = e' !! k.

(** A row of the dataset: ones at the even positions, zeros at the odd. *)
Definition sample_row : ndarray :=
  mk_ndarray [1; 593]%Z (map (fun i => Z.of_nat ((i + 1) mod 2)) (seq 0 593)).

(** The fused example graph (cell 23). *)
Definition fused_graph : GraphProto :=
  set_node simple_graph [fused_node; Abs_node; Add3_node; Round_node].

(** The input dictionary of cell 10. *)
Definition input_dict {T} (in1_values in2_values in3_values : T) : gmap string T :=
  <["in3" := in3_values]> (<["in2" := in2_values]> (<["in1" := in1_values]> ∅)).

(** A graph in which the second adder reads the connecting tensor twice:
    [sum2 = sum1 + sum1] with [sum1 = in1 + in2]. *)
Definition Add2_twice_node : NodeProto := make_node "Add" ["sum1"; "sum1"] ["sum2"] "Add2".

Definition doubling_graph : GraphProto :=
  make_graph
    [Add1_node; Add2_twice_node]
    "doubling_graph"
    [in1; in2]
    [ make_tensor_value_info "sum2" FLOAT [4; 4]%Z ]
    [ make_tensor_value_info "sum1" FLOAT [4; 4]%Z ].

Definition doubling_inputs : gmap string tensor44 :=
  <["in2" := full44 0]> (<["in1" := full44 1]> ∅).

(** An integer input for the example graph: three 4x4 arrays. *)
Definition sample_inputs : gmap string ndarray :=
  input_dict (mk_ndarray [4; 4]%Z (map Z.of_nat (seq 0 16)))
             (mk_ndarray [4; 4]%Z (map (fun i => - Z.of_nat (2 * i)) (seq 0 16)))%Z
             (mk_ndarray [4; 4]%Z (map (fun i => Z.of_nat i - 7) (seq 0 16)))%Z.

(** A graph in which the second operand of the second adder is produced
    between the two adders: [sum2 = (in1 + in2) + |in3|]. *)
Definition Abs3_node : NodeProto := make_node "Abs" ["in3"] ["abs3"] "Abs".
Definition Add2_late_node : NodeProto := make_node "Add" ["sum1"; "abs3"] ["sum2"] "Add2".

Definition interleaved_graph : GraphProto :=
  make_graph
    [Add1_node; Abs3_node; Add2_late_node]
    "interleaved_graph"
    [in1; in2; in3]
    [ make_tensor_value_info "sum2" FLOAT [4; 4]%Z ]
    [ make_tensor_value_info "sum1" FLOAT [4; 4]%Z;
      make_tensor_value_info "abs3" FLOAT [4; 4]%Z ].

(** What cells 16 to 23 make of [interleaved_graph]: the sum node stands
    where Add1 stood, before the node that produces its third operand. *)
Definition fused_interleaved_graph : GraphProto :=
  set_node interleaved_graph
    [make_node "Sum" ["in1"; "in2"; "abs3"] ["sum2"] "Sum"; Abs3_node].

Definition interleaved_inputs : gmap string tensor44 :=
  input_dict (full44 1) (full44 2) (full44 (-3)).

(** What cells 16 to 23 make of [doubling_graph]. *)
Definition fused_doubling_graph : GraphProto :=
  set_node doubling_graph [make_node "Sum" ["in1"; "in2"] ["sum2"] "Sum"].

(** What one pass of cell 19 keeps of an input list, given the first output
    of the other node, if it has one: the comparison is never evaluated for
    an empty input list. *)
Definition kept_inputs (ins : list string) (other_output : option string)
  : option (list string) :=
  match ins, other_output with
  | [], _ => Some []
  | _, Some o => Some (filter (fun x => x ≠ o) ins)
  | _, None => None
  end.

(** ** Loading the dataset and the verification loop of the MLP notebook *)

(** The number of elements under one index of the leading axes of a shape
    with the remaining extents [rest]. *)
Definition block_size (rest : list Z) : nat := Z.to_nat (foldr Z.mul 1%Z rest).

(** [a[:, :-1]]: along the second axis all but the last index; [None] is the
    [IndexError] of an array with fewer than two axes. *)
Definition slice_but_last_column (a : ndarray) : option ndarray :=
  match nd_shape a with
  | r :: c :: rest =>
      let inner := block_size rest in
      let rows := rows_of (Z.to_nat r) (Z.to_nat c * inner) (nd_data a) in
      Some (mk_ndarray (r :: Z.max (c - 1) 0 :: rest)
              (concat (map (take ((Z.to_nat c - 1) * inner)) rows)))
  | _ => None
  end.

(** [a[:, -1]]: along the second axis the last index only, which drops that
    axis; [None] is the [IndexError] of an array with fewer than two axes or
    with no column. *)
Definition slice_last_column (a : ndarray) : option ndarray :=
  match nd_shape a with
  | r :: c :: rest =>
      let inner := block_size rest in
      let rows := rows_of (Z.to_nat r) (Z.to_nat c * inner) (nd_data a) in
      if (c <=? 0)%Z then None
      else Some (mk_ndarray (r :: rest)
                   (concat (map (drop ((Z.to_nat c - 1) * inner)) rows)))
  | _ => None
  end.

(** [a.astype(np.float32)] on an array of integers. *)
Definition astype_float32_array (a : ndarray) : ndarray :=
  mk_ndarray (nd_shape a) (map astype_float32 (nd_data a)).

(** [get_preqnt_dataset] of the MLP notebook on the archive that
    [np.load] returns, a dictionary from partition names to arrays. The
    conversion to a torch tensor changes no value. The result is the pair
    of tensors of the [TensorDataset]. *)
Definition get_preqnt_dataset (unsw_nb15_data : gmap string ndarray) (train : bool)
  : option (ndarray * ndarray) :=
  let partition := if train then "train" else "test" in
  part_data ← astype_float32_array <$> unsw_nb15_data !! partition;
  part_data_in ← slice_but_last_column part_data;
  part_data_out ← slice_last_column part_data;
  Some (part_data_in, part_data_out).

(** [a[:n]]: the first [n] indices of the first axis. *)
Definition take_rows (n : nat) (a : ndarray) : option ndarray :=
  match nd_shape a with
  | r :: rest =>
      Some (mk_ndarray (Z.min (Z.of_nat n) r :: rest)
              (take (Nat.min n (Z.to_nat r) * block_size rest) (nd_data a)))
  | [] => None
  end.

(** [a[i]] for [i >= 0]: index [i] of the first axis; [None] is the
    [IndexError] when there is none. *)
Definition row_at (a : ndarray) (i : nat) : option ndarray :=
  match nd_shape a with
  | r :: rest =>
      if (Z.of_nat i <? r)%Z
      then Some (mk_ndarray rest
                   (take (block_size rest) (drop (i * block_size rest) (nd_data a))))
      else None
  | [] => None
  end.

Section Verification.
(** The executor, the verified model and the Brevitas side of the
    comparison, and the truth value Python gives to [a == b] and to
    [a != b] on two output arrays ([None] where it raises). *)
Variable execute_onnx : ModelWrapper → gmap string ndarray → option (gmap string ndarray).
Variable model_for_sim : ModelWrapper.
Variable inference_with_brevitas : ndarray → option ndarray.
Variable truth_eq : ndarray → ndarray → option bool.
Variable truth_ne : ndarray → ndarray → option bool.

(** One round of the verification loop: the truth values of
    [finn_output == brevitas_output] and [finn_output != brevitas_output]
    for input [i]. *)
Definition compare_outputs (input_tensor : ndarray) (i : nat) : option (bool * bool) :=
  row ← row_at input_tensor i;
  current_inp ← reshape row [1; 593]%Z;
  brevitas_output ← inference_with_brevitas current_inp;
  finn_output ← inference_with_finn_onnx execute_onnx model_for_sim current_inp;
  is_eq ← truth_eq finn_output brevitas_output;
  is_ne ← truth_ne finn_output brevitas_output;
  Some (is_eq, is_ne).

(** The verification loop: the counters [ok] and [nok] after
    [n_verification_inputs] rounds. *)
Definition verify_loop (input_tensor : ndarray) (n_verification_inputs : nat)
  : option (nat * nat) :=
  foldl (fun (acc : option (nat * nat)) (i : nat) =>
           '(ok, nok) ← acc;
           '(is_eq, is_ne) ← compare_outputs input_tensor i;
           Some (ok + (if is_eq : bool then 1 else 0), nok + (if is_ne : bool then 1 else 0))%nat)
        (Some (0, 0)%nat) (seq 0 n_verification_inputs).

(** The final assertion [ok == n_verification_inputs]. *)
Definition verification_succeeded (input_tensor : ndarray) (n_verification_inputs : nat)
  : option bool :=
  '(ok, nok) ← verify_loop input_tensor n_verification_inputs;
  Some (ok =? n_verification_inputs)%nat.
End Verification.

(** Two rows of 293 columns, all ones. *)
Definition two_short_rows : ndarray := mk_ndarray [2; 293]%Z (replicate 586 1%Z).

(** A small archive: a test partition of two samples with three features
    and a label each, and a train partition of one sample. *)
Definition sample_archive : gmap string ndarray :=
  <["test" := mk_ndarray [2; 4]%Z [1; 0; 1; 0; 0; 1; 1; 1]%Z]>
    (<["train" := mk_ndarray [1; 4]%Z [0; 0; 1; 1]%Z]> ∅).

(** Stand-ins for a run of the loop: an executor and a Brevitas model that
    both answer +1, element-wise comparison of one-element outputs, and two
    rows of the dataset. *)
Definition constant_executor (m : ModelWrapper) (d : gmap string ndarray)
  : option (gmap string ndarray) :=
  Some {[ "global_out" := mk_ndarray [1; 1]%Z [1]%Z ]}.
Definition constant_brevitas (a : ndarray) : option ndarray :=
  Some (mk_ndarray [1; 1]%Z [1]%Z).
Definition data_eq (a b : ndarray) : option bool :=
  Some (bool_decide (nd_data a = nd_data b)).
Definition data_ne (a b : ndarray) : option bool :=
  Some (negb (bool_decide (nd_data a = nd_data b))).
Definition two_rows : ndarray := mk_ndarray [2; 593]%Z (replicate 1186 1%Z).

(** * Properties *)

(** ** The loops as list operations *)

Lemma foldl_append_if {A B} (P : A → Prop) `{!∀ x, Decision (P x)}
    (p : A → bool) (f : A → B) (l : list A) (acc : list B) :
  (∀ x, p x = true ↔ P x) →
  foldl (fun acc x => if p x then acc ++ [f x] else acc) acc l = acc ++ map f (filter P l).
Proof.
  intros Hp. revert acc. induction l as [|x l IH]; intros acc; simpl.
  - by rewrite app_nil_r.
  - rewrite IH, filter_cons. pose proof (Hp x) as Hx.
    destruct (p x); case_decide as HP; simpl.
    + by rewrite <- app_assoc.
    + exfalso. apply HP, Hx. done.
    + exfalso. apply Hx in HP. discriminate.
    + done.
Qed.

Lemma eqb_Add s : String.eqb s "Add" = true ↔ s = "Add".
Proof. apply String.eqb_eq. Qed.

Lemma identify_adder_nodes_filter model :
  identify_adder_nodes model = filter (fun n => op_type n = "Add") (node (wgraph model)).
Proof.
  unfold identify_adder_nodes.
  rewrite (foldl_append_if (fun n => op_type n = "Add") (fun n => String.eqb (op_type n) "Add") id).
  - by rewrite map_id.
  - intros x. apply eqb_Add.
Qed.

Lemma adder_pair_map model n :
  adder_pair model n
  = map (fun s => [n; s]) (filter (fun s => op_type s = "Add") (find_direct_successors model n)).
Proof.
  unfold adder_pair.
  by rewrite (foldl_append_if (fun s => op_type s = "Add")
                (fun s => String.eqb (op_type s) "Add") (fun s => [] ++ [n] ++ [s]))
    by (intros x; apply eqb_Add).
Qed.

Lemma elem_of_adder_pair model n pair :
  pair ∈ adder_pair model n ↔
  ∃ s, pair = [n; s] ∧ op_type s = "Add" ∧ s ∈ find_direct_successors model n.
Proof.
  rewrite adder_pair_map, list_elem_of_fmap. split.
  - intros (s & -> & Hs). apply list_elem_of_filter in Hs as [Hop Hs]. by exists s.
  - intros (s & -> & Hop & Hs). exists s. split; [done|]. by apply list_elem_of_filter.
Qed.

(** A direct successor is a node of the graph that reads an output of the
    node. *)
Lemma elem_of_find_direct_successors model n s :
  s ∈ find_direct_successors model n ↔
  s ∈ node (wgraph model) ∧ ∃ o, o ∈ output n ∧ o ∈ input s.
Proof.
  unfold find_direct_successors.
  assert (Hgen : ∀ outs acc,
    s ∈ foldl (fun successors outp_tensor =>
                 successors ++ filter (fun c => c ∉ successors) (find_consumers model outp_tensor))
              acc outs ↔
    s ∈ acc ∨ (s ∈ node (wgraph model) ∧ ∃ o, o ∈ outs ∧ o ∈ input s)).
  { induction outs as [|o outs IH]; intros acc; simpl.
    - split; [by left|]. intros [?|(_ & o & Ho & _)]; [done|]. by apply elem_of_nil in Ho.
    - rewrite IH, elem_of_app, list_elem_of_filter. unfold find_consumers.
      rewrite list_elem_of_filter. split.
      + intros [[?|(? & ? & ?)]|(? & o' & ? & ?)].
        * by left.
        * right. split; [done|]. exists o. split; [left|done].
        * right. split; [done|]. exists o'. split; [by right|done].
      + intros [?|(Hs & o' & Ho' & Hin)]; [by left; left|].
        apply elem_of_cons in Ho' as [->|Ho'].
        * destruct (decide (s ∈ acc)); [by left; left|]. left. right. done.
        * right. split; [done|]. by exists o'. }
  rewrite Hgen. split.
  - intros [H|H]; [by apply elem_of_nil in H|done].
  - by right.
Qed.

(** The successors of a node depend on its outputs only. *)
Lemma find_direct_successors_output model n n' :
  output n = output n' → find_direct_successors model n = find_direct_successors model n'.
Proof. unfold find_direct_successors. by intros ->. Qed.

Lemma append_inputs_filter other this l o :
  output0 other = Some o →
  append_inputs (Some other) this l = Some (l ++ filter (fun x => x ≠ o) (input this)).
Proof.
  intros Ho. unfold append_inputs. simpl. rewrite Ho. simpl.
  generalize (input this) as ins. intros ins.
  revert l. induction ins as [|x ins IH]; intros l; simpl.
  - by rewrite app_nil_r.
  - rewrite filter_cons.
    destruct (String.eqb_spec x o) as [->|Hne]; rewrite IH; case_decide; try done.
    by rewrite <- app_assoc.
Qed.

Lemma input_list_pair n1 n2 o1 o2 :
  output0 n1 = Some o1 → output0 n2 = Some o2 →
  input_list [n1; n2]
  = Some (filter (fun x => x ≠ o2) (input n1) ++ filter (fun x => x ≠ o1) (input n2)).
Proof.
  intros H1 H2. unfold input_list. simpl.
  rewrite (append_inputs_filter n2 n1 [] o2 H2). simpl.
  by rewrite (append_inputs_filter n1 n2 _ o1 H1).
Qed.

(** ** Finding adders and adder pairs *)

(** Claim C4: [identify_adder_nodes] returns, in graph node order, exactly
    the nodes whose operator type is [Add]; on the example graph these are
    Add1, Add2 and Add3 and no others. *)
Theorem identify_adder_nodes_exact :
  (∀ model, identify_adder_nodes model
            = filter (fun n => op_type n = "Add") (node (wgraph model)))
  ∧ identify_adder_nodes finn_model = [Add1_node; Add2_node; Add3_node].
Proof.
  split.
  - apply identify_adder_nodes_filter.
  - vm_compute. reflexivity.
Qed.

(** Claim C8: [adder_pair] returns one pair [(node, s)] for every direct
    successor [s] that is an adder and never looks at the operator type of
    [node] itself: changing that type changes nothing but the first element
    of the pairs, and for the Abs node of the example it returns the pair
    (Abs, Add3), whose first element is no adder. Only because the search
    loop passes adders are both elements of the pairs it finds adders. *)
Theorem adder_pair_ignores_own_op_type :
  (∀ model n,
     adder_pair model n
     = map (fun s => [n; s])
           (filter (fun s => op_type s = "Add") (find_direct_successors model n)))
  ∧ (∀ model n op,
       adder_pair model (with_op_type op n)
       = map (fun s => [with_op_type op n; s])
             (filter (fun s => op_type s = "Add") (find_direct_successors model n)))
  ∧ [Abs_node; Add3_node] ∈ adder_pair finn_model Abs_node
  ∧ op_type Abs_node ≠ "Add"
  ∧ (∀ model pair n,
       pair ∈ all_adder_pairs model (identify_adder_nodes model) →
       n ∈ pair → op_type n = "Add").
Proof.
  split; [apply adder_pair_map|].
  split.
  { intros model n op. rewrite adder_pair_map.
    by rewrite (find_direct_successors_output model (with_op_type op n) n). }
  split; [vm_compute; left|].
  split; [discriminate|].
  intros model pair n Hpair Hn. unfold all_adder_pairs in Hpair.
  apply list_elem_of_In, in_flat_map in Hpair as (a & Ha & Hpair).
  apply list_elem_of_In in Ha, Hpair.
  rewrite identify_adder_nodes_filter in Ha. apply list_elem_of_filter in Ha as [Ha _].
  apply elem_of_adder_pair in Hpair as (s & -> & Hs & _).
  apply elem_of_cons in Hn as [->|Hn]; [done|].
  apply list_elem_of_singleton in Hn as ->. done.
Qed.

(** Claim C3: on the example graph pair detection matches the chained pair
    (Add1, Add2) and nothing else; Add2 and Add3 have no adder behind them.
    Fusing that pair leaves Abs, Add3 and Round as they were. In any graph a
    matched second node is a node of the graph that reads an output of the
    first. *)
Theorem pair_detection_only_chained :
  all_adder_pairs finn_model (identify_adder_nodes finn_model) = [[Add1_node; Add2_node]]
  ∧ adder_pair finn_model Add2_node = []
  ∧ adder_pair finn_model Add3_node = []
  ∧ find_substitute_pair finn_model (identify_adder_nodes finn_model)
    = Some [Add1_node; Add2_node]
  ∧ (node <$> fuse_adders simple_graph)
    = Some [fused_node; Abs_node; Add3_node; Round_node]
  ∧ (∀ model n pair,
       pair ∈ adder_pair model n →
       ∃ s, pair = [n; s] ∧ op_type s = "Add" ∧ s ∈ node (wgraph model)
            ∧ ∃ o, o ∈ output n ∧ o ∈ input s).
Proof.
  repeat split; try (vm_compute; reflexivity).
  intros model n pair (s & -> & Hop & Hs)%elem_of_adder_pair.
  apply elem_of_find_direct_successors in Hs as [Hs Ho].
  by exists s.
Qed.

(** Claim C2: the replacement node takes the inputs of the first node that
    differ from the second node's output, then the inputs of the second node
    that differ from the first node's output, and its only output is the
    second node's first output. For the chain Add1(in1,in2)->sum1,
    Add2(sum1,in3)->sum2 of the example the inputs are in1, in2, in3 in that
    order and the output is sum2, the output of Add2. *)
Theorem fused_node_inputs_and_output :
  (∀ op1 ins1 s1 outs1 name1 op2 ins2 s2 outs2 name2,
     Sum_node [make_node op1 ins1 (s1 :: outs1) name1; make_node op2 ins2 (s2 :: outs2) name2]
     = Some (make_node "Sum"
               (filter (fun x => x ≠ s2) ins1 ++ filter (fun x => x ≠ s1) ins2)
               [s2] "Sum"))
  ∧ (substitute_pair ← find_substitute_pair finn_model (identify_adder_nodes finn_model);
     Sum_node substitute_pair)
    = Some (make_node "Sum" ["in1"; "in2"; "in3"] ["sum2"] "Sum")
  ∧ output Add2_node = ["sum2"].
Proof.
  split; [|split; vm_compute; reflexivity].
  intros. unfold Sum_node.
  rewrite (input_list_pair _ _ s1 s2) by done. done.
Qed.

(** ** Topological order *)

Lemma topo_sorted_cons n rest :
  topo_sorted (n :: rest) = true ↔
  (∀ x m, x ∈ input n → m ∈ n :: rest → x ∉ output m) ∧ topo_sorted rest = true.
Proof.
  change (topo_sorted (n :: rest))
    with (forallb (fun i => forallb (fun m => bool_decide (i ∉ output m)) (n :: rest)) (input n)
          && topo_sorted rest).
  rewrite andb_true_iff, forallb_forall. split.
  - intros [Hn Hrest]. split; [|done]. intros x m Hx Hm.
    apply list_elem_of_In in Hx. specialize (Hn x Hx).
    rewrite forallb_forall in Hn.
    apply list_elem_of_In in Hm. specialize (Hn m Hm).
    by apply bool_decide_eq_true in Hn.
  - intros [Hn Hrest]. split; [|done]. intros x Hx.
    apply list_elem_of_In in Hx.
    rewrite forallb_forall. intros m Hm. apply list_elem_of_In in Hm.
    apply bool_decide_eq_true. by apply Hn.
Qed.

(** In a topologically sorted sequence a node never reads what a node at
    the same or a later position produces. *)
Lemma topo_sorted_lookup ns (i j : nat) n m x :
  topo_sorted ns = true →
  ns !! i = Some n → ns !! j = Some m → (i ≤ j)%nat →
  x ∈ input n → x ∉ output m.
Proof.
  revert i j. induction ns as [|a ns IH]; intros i j Hsorted Hi Hj Hle Hx; [done|].
  apply topo_sorted_cons in Hsorted as [Ha Hrest].
  destruct i as [|i].
  - simplify_eq/=. apply Ha; [done|]. by eapply list_elem_of_lookup_2.
  - destruct j as [|j]; [lia|]. simpl in Hi, Hj.
    eapply (IH i j); eauto with lia.
Qed.

(** Two nodes of a sorted sequence cannot feed each other. *)
Lemma topo_sorted_no_cycle ns n m x y :
  topo_sorted ns = true → n ∈ ns → m ∈ ns →
  x ∈ output n → x ∈ input m → y ∈ output m → y ∈ input n → False.
Proof.
  intros Hsorted [i Hi]%list_elem_of_lookup [j Hj]%list_elem_of_lookup Hxn Hxm Hym Hyn.
  destruct (decide (i ≤ j)%nat).
  - by eapply (topo_sorted_lookup ns i j n m y).
  - eapply (topo_sorted_lookup ns j i m n x); eauto with lia.
Qed.

Lemma filter_all {A} (P : A → Prop) `{!∀ x, Decision (P x)} (l : list A) :
  (∀ x, x ∈ l → P x) → filter P l = l.
Proof.
  induction l as [|a l IH]; intros Hall; [done|].
  rewrite filter_cons, decide_True by (apply Hall; left).
  f_equal. apply IH. intros x Hx. apply Hall. by right.
Qed.

(** Claim C10: the filter on the first node of a pair drops the inputs
    equal to the second node's output. For a pair found in a topologically
    sorted node sequence, with a first node of one output and a second node
    that has an output, it drops nothing: the fused input list is all of the
    first node's inputs followed by the second node's inputs other than the
    connecting tensor, which the second node does read. *)
Theorem first_node_filter_discards_nothing model n1 n2 s1 :
  topo_sorted (node (wgraph model)) = true →
  n1 ∈ node (wgraph model) →
  output n1 = [s1] →
  [n1; n2] ∈ adder_pair model n1 →
  output n2 ≠ [] →
  s1 ∈ input n2
  ∧ append_inputs (Some n2) n1 [] = Some (input n1)
  ∧ input_list [n1; n2] = Some (input n1 ++ filter (fun x => x ≠ s1) (input n2)).
Proof.
  intros Hsorted Hn1 Hout1 (s & Hpair & Hop & Hsucc)%elem_of_adder_pair Hne.
  injection Hpair as <-.
  apply elem_of_find_direct_successors in Hsucc as (Hn2 & o & Ho & Hin).
  rewrite Hout1 in Ho. apply list_elem_of_singleton in Ho as ->.
  assert (∃ s2, output0 n2 = Some s2) as [s2 Hs2].
  { unfold output0. destruct (output n2) as [|s2 ?] eqn:E; [done|by exists s2]. }
  assert (Hkeep : filter (fun x => x ≠ s2) (input n1) = input n1).
  { apply filter_all. intros x Hx ->.
    apply (topo_sorted_no_cycle (node (wgraph model)) n1 n2 s1 s2); try done.
    - rewrite Hout1. left.
    - unfold output0 in Hs2. by eapply list_elem_of_lookup_2. }
  split; [done|]. split.
  - rewrite (append_inputs_filter n2 n1 [] s2 Hs2). simpl. by rewrite Hkeep.
  - rewrite (input_list_pair n1 n2 s1 s2); [by rewrite Hkeep| |done].
    unfold output0. by rewrite Hout1.
Qed.

Lemma first_node_filter_discards_nothing_witness :
  "sum1" ∈ input Add2_node
  ∧ append_inputs (Some Add2_node) Add1_node [] = Some (input Add1_node)
  ∧ input_list [Add1_node; Add2_node]
    = Some (input Add1_node ++ filter (fun x => x ≠ "sum1") (input Add2_node)).
Proof.
  apply (first_node_filter_discards_nothing finn_model Add1_node Add2_node "sum1").
  - vm_compute. reflexivity.
  - vm_compute. left.
  - reflexivity.
  - vm_compute. left.
  - discriminate.
Defined.

(** ** Preparing the input of the exported MLP *)

(** Padding a one-row array on the right appends zeros to the row. *)
Lemma np_pad_one_row a (c : Z) (k : nat) :
  nd_shape a = [1; c]%Z →
  length (nd_data a) = Z.to_nat c →
  np_pad a ((0, 0), (0, k))%nat
  = Some (mk_ndarray [1; c + Z.of_nat k]%Z (nd_data a ++ replicate k 0%Z)).
Proof.
  intros Hshape Hlen. unfold np_pad. rewrite Hshape.
  change (Z.to_nat 1) with 1%nat. cbn [rows_of map replicate app concat].
  rewrite take_ge by lia. by rewrite !app_nil_r.
Qed.

Lemma is_binary_row_spec a :
  is_binary_row a = true →
  nd_shape a = [1; 593]%Z ∧ length (nd_data a) = 593%nat
  ∧ ∀ x, x ∈ nd_data a → x = 0%Z ∨ x = 1%Z.
Proof.
  unfold is_binary_row. rewrite !andb_true_iff, forallb_forall.
  intros [[Hshape Hlen] Hbits].
  apply bool_decide_eq_true in Hshape. apply Nat.eqb_eq in Hlen.
  repeat split; try done.
  intros x Hx%list_elem_of_In. specialize (Hbits x Hx).
  apply orb_true_iff in Hbits as [?%Z.eqb_eq|?%Z.eqb_eq]; auto.
Qed.

(** The array handed to the executor, as a function of the row. *)
Lemma inference_with_finn_onnx_call execute_onnx model_for_sim current_inp tensor out_tensor :
  is_binary_row current_inp = true →
  vi_name <$> graph_input (wgraph model_for_sim) !! 0%nat = Some tensor →
  get_tensor_shape model_for_sim tensor = Some [1; 600]%Z →
  vi_name <$> graph_output (wgraph model_for_sim) !! 0%nat = Some out_tensor →
  inference_with_finn_onnx execute_onnx model_for_sim current_inp
  = execute_onnx model_for_sim
      {[ tensor := mk_ndarray [1; 600]%Z
           (map (fun x => 2 * x - 1)%Z (nd_data current_inp ++ replicate 7 0%Z)) ]}
    ≫= (fun output_dict => output_dict !! out_tensor).
Proof.
  intros (Hshape & Hlen & _)%is_binary_row_spec Hname Hin Hout.
  unfold inference_with_finn_onnx.
  rewrite Hname. cbn [mbind option_bind]. rewrite Hin, Hout.
  rewrite (np_pad_one_row current_inp 593 7) by (done || lia).
  cbn [mbind option_bind]. unfold reshape, rescale_bipolar. cbn [nd_data nd_shape].
  rewrite length_map, length_app, length_replicate, Hlen.
  reflexivity.
Qed.

(** Claim C9: the seven zeros are appended before the rescaling [2*x-1].
    Whatever the executor, [inference_with_finn_onnx] calls it with one
    array of shape [1, 600] that holds only -1 and +1, holds -1 at each of
    the seven padded positions 593 to 599, and holds [2*x-1] where the row
    holds [x]. *)
Theorem padding_is_rescaled_to_minus_one model_for_sim current_inp tensor out_tensor :
  is_binary_row current_inp = true →
  vi_name <$> graph_input (wgraph model_for_sim) !! 0%nat = Some tensor →
  get_tensor_shape model_for_sim tensor = Some [1; 600]%Z →
  vi_name <$> graph_output (wgraph model_for_sim) !! 0%nat = Some out_tensor →
  ∃ fed,
    (∀ execute_onnx,
       inference_with_finn_onnx execute_onnx model_for_sim current_inp
       = execute_onnx model_for_sim {[ tensor := fed ]}
         ≫= (fun output_dict => output_dict !! out_tensor))
    ∧ nd_shape fed = [1; 600]%Z
    ∧ length (nd_data fed) = 600%nat
    ∧ (∀ x, x ∈ nd_data fed → x = (-1)%Z ∨ x = 1%Z)
    ∧ (∀ i : nat, (593 ≤ i < 600)%nat → nd_data fed !! i = Some (-1)%Z)
    ∧ (∀ (i : nat) x, nd_data current_inp !! i = Some x →
                      nd_data fed !! i = Some (2 * x - 1)%Z).
Proof.
  intros Hrow Hname Hin Hout.
  pose proof (is_binary_row_spec _ Hrow) as (Hshape & Hlen & Hbits).
  eexists. split.
  { intros execute_onnx. by apply inference_with_finn_onnx_call. }
  cbn [nd_data nd_shape]. split; [done|]. split.
  { rewrite length_map, length_app, length_replicate, Hlen. reflexivity. }
  split.
  { intros y (x & -> & Hx)%list_elem_of_fmap.
    apply elem_of_app in Hx as [Hx|Hx].
    - destruct (Hbits x Hx) as [->| ->]; auto.
    - apply elem_of_replicate in Hx as [-> _]. auto. }
  split.
  { intros i Hi. rewrite list_lookup_fmap, lookup_app_r by lia.
    rewrite lookup_replicate_2 by lia. reflexivity. }
  intros i x Hx. rewrite list_lookup_fmap, lookup_app_l by (by eapply lookup_lt_Some).
  by rewrite Hx.
Qed.

Lemma padding_is_rescaled_to_minus_one_witness :
  ∃ fed,
    (∀ execute_onnx,
       inference_with_finn_onnx execute_onnx mlp_interface sample_row
       = execute_onnx mlp_interface {[ "global_in" := fed ]}
         ≫= (fun output_dict => output_dict !! "global_out"))
    ∧ nd_shape fed = [1; 600]%Z
    ∧ length (nd_data fed) = 600%nat
    ∧ (∀ x, x ∈ nd_data fed → x = (-1)%Z ∨ x = 1%Z)
    ∧ (∀ i : nat, (593 ≤ i < 600)%nat → nd_data fed !! i = Some (-1)%Z)
    ∧ (∀ (i : nat) x, nd_data sample_row !! i = Some x →
                      nd_data fed !! i = Some (2 * x - 1)%Z).
Proof.
  apply (padding_is_rescaled_to_minus_one mlp_interface sample_row "global_in" "global_out").
  - vm_compute. reflexivity.
  - reflexivity.
  - vm_compute. reflexivity.
  - reflexivity.
Defined.

(** ** Running node sequences *)

Section ExecutionFacts.
Context {T : Type} {numpy : Numpy T}.

Lemma outputs_of_bind {A B} (r : result A) (f : A → result B) :
  outputs_of (r ≫= f) = outputs_of r ≫= (fun a => outputs_of (f a)).
Proof. by destruct r. Qed.

Lemma run_nodes_from (r : result (gmap string T)) ns :
  foldl (fun r n => env ← r; exec_node env n) r ns = r ≫= run_nodes ns.
Proof.
  revert r. induction ns as [|n ns IH]; intros r.
  - by destruct r.
  - simpl. rewrite IH. destruct r as [env|e]; [|done].
    unfold run_nodes. simpl. by rewrite IH.
Qed.

Lemma run_nodes_cons n ns env :
  run_nodes (n :: ns) env = exec_node env n ≫= run_nodes ns.
Proof. unfold run_nodes at 1. simpl. apply run_nodes_from. Qed.

Lemma run_nodes_app ns1 ns2 env :
  run_nodes (ns1 ++ ns2) env = run_nodes ns1 env ≫= run_nodes ns2.
Proof.
  unfold run_nodes at 1. rewrite foldl_app. apply run_nodes_from.
Qed.

Lemma run_nil env : run [] env = Some env.
Proof. done. Qed.

Lemma run_cons n ns env : run (n :: ns) env = step n env ≫= run ns.
Proof. unfold run. by rewrite run_nodes_cons, outputs_of_bind. Qed.

Lemma run_app ns1 ns2 env : run (ns1 ++ ns2) env = run ns1 env ≫= run ns2.
Proof. unfold run. by rewrite run_nodes_app, outputs_of_bind. Qed.

Lemma agree_off_insert X (e e' : gmap string T) o v :
  agree_off X e e' → agree_off X (<[o := v]> e) (<[o := v]> e').
Proof.
  intros H k Hk. destruct (decide (o = k)) as [->|Hne].
  - by rewrite !lookup_insert_eq.
  - rewrite !lookup_insert_ne by done. by apply H.
Qed.

Lemma agree_off_bind_outputs X (e e' : gmap string T) (ovs : list (string * T)) :
  agree_off X e e' →
  agree_off X (foldl (fun e '(o, v) => <[o := v]> e) e ovs)
              (foldl (fun e '(o, v) => <[o := v]> e) e' ovs).
Proof.
  revert e e'. induction ovs as [|[o v] ovs IH]; intros e e' H; [done|].
  simpl. by apply IH, agree_off_insert.
Qed.

Lemma mapM_lookup_agree X (e e' : gmap string T) (ins : list string) :
  agree_off X e e' → (∀ x, x ∈ ins → x ∉ X) →
  mapM (fun i => e !! i) ins = mapM (fun i => e' !! i) ins.
Proof.
  intros H. induction ins as [|i ins IH]; intros Hins; [done|].
  simpl. rewrite (H i) by (apply Hins; left).
  rewrite IH; [done|]. intros x Hx. apply Hins. by right.
Qed.

(** A node that reads nothing in [X] does the same in environments that
    agree off [X]. *)
Lemma step_agree X n (e e' : gmap string T) :
  (∀ x, x ∈ input n → x ∉ X) → agree_off X e e' →
  option_Forall2 (agree_off X) (step n e) (step n e').
Proof.
  intros Hins H. unfold step, exec_node.
  rewrite (mapM_lookup_agree X e e' (input n) H Hins).
  destruct (mapM _ (input n)) as [args|]; [|constructor].
  destruct (backend (op_type n) args) as [outs|]; [|constructor].
  destruct (length outs =? length (output n))%nat; [|constructor].
  constructor. by apply agree_off_bind_outputs.
Qed.

Lemma run_agree X ns (e e' : gmap string T) :
  (∀ n x, n ∈ ns → x ∈ input n → x ∉ X) → agree_off X e e' →
  option_Forall2 (agree_off X) (run ns e) (run ns e').
Proof.
  revert e e'. induction ns as [|n ns IH]; intros e e' Hins H.
  - by constructor.
  - rewrite !run_cons.
    destruct (step_agree X n e e') as [e1 e1' H1|]; [|done| |constructor].
    + intros x Hx. eapply Hins; [left|done].
    + simpl. apply IH; [|done]. intros m x Hm. apply Hins. by right.
Qed.

Lemma bind_outputs_lookup_ne (e : gmap string T) (ovs : list (string * T)) x :
  x ∉ ovs.*1 →
  foldl (fun e '(o, v) => <[o := v]> e) e ovs !! x = e !! x.
Proof.
  revert e. induction ovs as [|[o v] ovs IH]; intros e Hx; [done|].
  simpl in *. rewrite IH by (intros ?; apply Hx; by right).
  apply lookup_insert_ne. intros ->. apply Hx. left.
Qed.

(** A step leaves alone what the node does not produce. *)
Lemma step_lookup_ne n (e e' : gmap string T) x :
  x ∉ output n → step n e = Some e' → e' !! x = e !! x.
Proof.
  intros Hx. unfold step, exec_node.
  destruct (mapM _ (input n)) as [args|]; [|done].
  destruct (backend (op_type n) args) as [outs|]; [|done].
  destruct (length outs =? length (output n))%nat eqn:Hlen; [|done].
  intros [= <-]. apply bind_outputs_lookup_ne.
  apply Nat.eqb_eq in Hlen. by rewrite fst_zip by lia.
Qed.

Lemma run_lookup_ne ns (e e' : gmap string T) x :
  (∀ n, n ∈ ns → x ∉ output n) → run ns e = Some e' → e' !! x = e !! x.
Proof.
  revert e. induction ns as [|n ns IH]; intros e Hx.
  - by intros [= <-].
  - rewrite run_cons. destruct (step n e) as [e1|] eqn:Hstep; [|done].
    simpl. intros Hrun. rewrite (IH e1) by (try done; intros m Hm; apply Hx; by right).
    eapply step_lookup_ne; [|done]. apply Hx. left.
Qed.
Lemma step_add n a b o (e : gmap string T) :
  op_type n = "Add" → input n = [a; b] → output n = [o] →
  step n e = (va ← e !! a; vb ← e !! b; Some (<[o := np_add va vb]> e)).
Proof.
  intros Hop Hin Hout. unfold step, exec_node.
  rewrite Hop, Hin, Hout. simpl.
  destruct (e !! a) as [va|]; [|done]. destruct (e !! b) as [vb|]; done.
Qed.

Lemma step_sum3 n a b c o (e : gmap string T) :
  op_type n = "Sum" → input n = [a; b; c] → output n = [o] →
  step n e = (va ← e !! a; vb ← e !! b; vc ← e !! c;
              Some (<[o := np_add (np_add va vb) vc]> e)).
Proof.
  intros Hop Hin Hout. unfold step, exec_node.
  rewrite Hop, Hin, Hout. simpl.
  destruct (e !! a) as [va|]; [|done]. destruct (e !! b) as [vb|]; [|done].
  destruct (e !! c) as [vc|]; done.
Qed.

(** The heart of the fusion: with the two adders [n1], [n2] replaced by the
    sum [sm] at the place of [n1], a run ends in an environment that differs
    from the original one at most at the connecting tensor [s1]. *)
Lemma fusion_run_agree pre mid post n1 n2 sm a b c s1 s2 (e0 : gmap string T) :
  op_type n1 = "Add" → input n1 = [a; b] → output n1 = [s1] →
  op_type n2 = "Add" → output n2 = [s2] →
  (input n2 = [s1; c] ∨ (input n2 = [c; s1] ∧ ∀ x y, np_add x y = np_add y x)) →
  op_type sm = "Sum" → input sm = [a; b; c] → output sm = [s2] →
  c ≠ s1 →
  (∀ m, m ∈ mid → (s1 ∉ input m) ∧ (s2 ∉ input m)
                  ∧ (s1 ∉ output m) ∧ (s2 ∉ output m) ∧ (c ∉ output m)) →
  (∀ m, m ∈ post → s1 ∉ input m) →
  option_Forall2 (agree_off [s1])
    (run (pre ++ n1 :: mid ++ n2 :: post) e0)
    (run (pre ++ sm :: mid ++ post) e0).
Proof.
  intros Hop1 Hin1 Hout1 Hop2 Hout2 Hin2 Hops Hins Houts Hc Hmid Hpost.
  rewrite !run_app. destruct (run pre e0) as [e1|]; [|constructor]. simpl.
  rewrite !run_cons, (step_add n1 a b s1), (step_sum3 sm a b c s2) by done.
  destruct (e1 !! a) as [va|]; [|constructor].
  destruct (e1 !! b) as [vb|]; [|constructor]. simpl.
  rewrite !run_app.
  assert (Hc3 : ∀ e3, run mid (<[s1 := np_add va vb]> e1) = Some e3 → e3 !! c = e1 !! c).
  { intros e3 H3. rewrite (run_lookup_ne mid _ e3 c) by (try done; intros m Hm; apply Hmid, Hm).
    by apply lookup_insert_ne. }
  assert (Hs3 : ∀ e3, run mid (<[s1 := np_add va vb]> e1) = Some e3 →
                      e3 !! s1 = Some (np_add va vb)).
  { intros e3 H3. rewrite (run_lookup_ne mid _ e3 s1) by (try done; intros m Hm; apply Hmid, Hm).
    apply lookup_insert_eq. }
  assert (Hstep2 : ∀ e3, run mid (<[s1 := np_add va vb]> e1) = Some e3 →
            step n2 e3 = (vc ← e1 !! c; Some (<[s2 := np_add (np_add va vb) vc]> e3))).
  { intros e3 H3. destruct Hin2 as [Hin2|[Hin2 Hcomm]].
    - rewrite (step_add n2 s1 c s2) by done. rewrite (Hs3 e3 H3), (Hc3 e3 H3). done.
    - rewrite (step_add n2 c s1 s2) by done. rewrite (Hs3 e3 H3), (Hc3 e3 H3).
      destruct (e1 !! c) as [vc|]; [|done]. simpl. by rewrite (Hcomm vc). }
  destruct (e1 !! c) as [vc|] eqn:Hlc; simpl; rewrite ?run_app.
  - assert (Hoff : option_Forall2 (agree_off [s1; s2])
                     (run mid (<[s1 := np_add va vb]> e1))
                     (run mid (<[s2 := np_add (np_add va vb) vc]> e1))).
    { apply run_agree.
      - intros m x Hm Hx Hxs. destruct (Hmid m Hm) as (? & ? & _).
        apply elem_of_cons in Hxs as [->|Hxs]; [done|].
        apply list_elem_of_singleton in Hxs as ->. done.
      - intros k Hk. apply not_elem_of_cons in Hk as [? Hk].
        apply not_elem_of_cons in Hk as [? _].
        by rewrite !lookup_insert_ne. }
    destruct (run mid (<[s1 := np_add va vb]> e1)) as [e3|] eqn:H3;
      inversion Hoff as [? e3' Hoff' Heq1 Heq2|]; subst; [|constructor].
    simpl. rewrite run_cons, (Hstep2 e3) by done. simpl.
    apply run_agree.
    { intros m x Hm Hx Hxs. apply list_elem_of_singleton in Hxs as ->.
      by apply (Hpost m). }
    intros k Hk. apply not_elem_of_cons in Hk as [Hk _].
    destruct (decide (k = s2)) as [->|Hk2].
    + rewrite lookup_insert_eq.
      rewrite (run_lookup_ne mid _ e3' s2) by (try done; intros m Hm; apply Hmid, Hm).
      by rewrite lookup_insert_eq.
    + rewrite lookup_insert_ne by done. apply Hoff'.
      intros Hin. apply elem_of_cons in Hin as [?|Hin]; [done|].
      by apply list_elem_of_singleton in Hin.
  - destruct (run mid (<[s1 := np_add va vb]> e1)) as [e3|] eqn:H3; [|constructor].
    simpl. rewrite run_cons, (Hstep2 e3) by done. constructor.
Qed.
End ExecutionFacts.

(** ** Splicing *)

Lemma node_ids_fold (l : list NodeProto) (m : gmap string nat) (k : nat) :
  let r := foldl (fun '(node_index, node_ind) n =>
                    (<[name n := node_ind]> node_index, S node_ind)) (m, k) l in
  r.2 = (k + length l)%nat ∧ ∀ nm, nm ∉ map name l → r.1 !! nm = m !! nm.
Proof.
  revert m k. induction l as [|n l IH]; intros m k; simpl.
  - split; [lia|done].
  - destruct (IH (<[name n := k]> m) (S k)) as [IH2 IH1]. split; [lia|].
    intros nm Hnm. apply not_elem_of_cons in Hnm as [Hne Hnm].
    rewrite IH1 by done. by apply lookup_insert_ne.
Qed.

(** With the name of a node not used again behind it, [get_node_id] maps
    the name to the position of the node. *)
Lemma get_node_id_lookup model pre n rest :
  node (wgraph model) = pre ++ n :: rest →
  name n ∉ map name rest →
  get_node_id model !! name n = Some (length pre).
Proof.
  intros Hnodes Hfresh. unfold get_node_id. rewrite Hnodes, foldl_app. simpl.
  destruct (node_ids_fold pre ∅ 0) as [Hk _].
  destruct (foldl _ (∅, 0%nat) pre) as [m k] eqn:Hpre. simpl in Hk. subst k.
  destruct (node_ids_fold rest (<[name n := length pre]> m) (S (length pre))) as [_ Hm].
  rewrite Hm by done. apply lookup_insert_eq.
Qed.

Lemma list_insert_at_app {A} (x : A) (l1 l2 : list A) :
  list_insert_at (length l1) x (l1 ++ l2) = l1 ++ x :: l2.
Proof. unfold list_insert_at. by rewrite take_app_length, drop_app_length. Qed.

Lemma list_remove_first_app x l1 l2 :
  x ∉ l1 → list_remove_first x (l1 ++ x :: l2) = Some (l1 ++ l2).
Proof.
  induction l1 as [|y l1 IH]; intros Hx; simpl.
  - by rewrite decide_True.
  - apply not_elem_of_cons in Hx as [Hne Hx].
    rewrite decide_False by done. by rewrite IH.
Qed.

(** Cell 22 on a graph in which the pair is found at known places: the new
    node takes the place of the first node and both nodes are gone. *)
Lemma replace_pair_app g pn pre mid post n1 n2 new_node :
  node g = pre ++ n1 :: mid ++ n2 :: post →
  NoDup (map name (node g)) →
  new_node ≠ n1 → new_node ≠ n2 →
  replace_pair (wrap_model (qonnx_make_model g pn)) g [n1; n2] new_node
  = Some (set_node g (pre ++ new_node :: mid ++ post)).
Proof.
  intros Hnodes Hnames Hne1 Hne2.
  rewrite Hnodes in Hnames. rewrite map_app in Hnames. simpl in Hnames.
  apply NoDup_app in Hnames as (Hpre & Hdisj & Hrest).
  apply NoDup_cons in Hrest as [Hn1 Hrest].
  rewrite map_app in Hn1, Hrest. simpl in Hn1, Hrest.
  apply NoDup_app in Hrest as (Hmid & Hdisj2 & Hpost).
  assert (Hin_name : ∀ (n : NodeProto) l, n ∈ l → name n ∈ map name l).
  { intros n l Hn. by apply (list_elem_of_fmap_2 name). }
  assert (n1 ∉ pre) as Hn1pre.
  { intros Hin. apply (Hdisj (name n1)); [by apply Hin_name|left]. }
  assert (n2 ∉ pre) as Hn2pre.
  { intros Hin. apply (Hdisj (name n2)); [by apply Hin_name|].
    right. apply Hin_name, elem_of_app. right. left. }
  assert (n2 ∉ mid) as Hn2mid.
  { intros Hin. apply (Hdisj2 (name n2)); [by apply Hin_name|left]. }
  unfold replace_pair. simpl.
  rewrite (get_node_id_lookup _ pre n1 (mid ++ n2 :: post)); [|done|by rewrite map_app].
  simpl. rewrite Hnodes, list_insert_at_app.
  replace (pre ++ new_node :: n1 :: mid ++ n2 :: post)
    with ((pre ++ [new_node]) ++ n1 :: mid ++ n2 :: post) by by rewrite <- app_assoc.
  rewrite list_remove_first_app.
  2:{ intros [?|Hin]%elem_of_app; [done|]. by apply list_elem_of_singleton in Hin. }
  simpl.
  replace ((pre ++ [new_node]) ++ mid ++ n2 :: post)
    with ((pre ++ new_node :: mid) ++ n2 :: post) by by rewrite <- !app_assoc.
  rewrite list_remove_first_app.
  2:{ intros [?|Hin]%elem_of_app; [done|].
      apply elem_of_cons in Hin as [?|?]; done. }
  simpl. by rewrite <- app_assoc.
Qed.

(** ** From the well-formedness of the graph to the facts of the run *)

Lemma filter_singleton_app {A} (P : A → Prop) `{!∀ x, Decision (P x)} (l1 l2 : list A) x :
  filter P (l1 ++ x :: l2) = [x] → ∀ y, y ∈ l1 ++ l2 → ¬ P y.
Proof.
  rewrite filter_app, filter_cons. intros Hf y Hy HP.
  assert (Hlen : (length (filter P l1) + length (filter P (x :: l2)) = 1)%nat).
  { rewrite <- length_app, filter_cons. by rewrite Hf. }
  rewrite filter_cons in Hlen.
  assert (P x) as HPx.
  { destruct (decide (P x)) as [|Hnx]; [done|].
    assert (x ∈ filter P l1 ++ filter P l2) as Hx by (rewrite Hf; left).
    apply elem_of_app in Hx as [Hx|Hx]; apply list_elem_of_filter in Hx as [? _]; done. }
  rewrite decide_True in Hlen by done. simpl in Hlen.
  apply elem_of_app in Hy as [Hy|Hy].
  - assert (y ∈ filter P l1) as Hin by by apply list_elem_of_filter.
    destruct (filter P l1); [by apply elem_of_nil in Hin|simpl in Hlen; lia].
  - assert (y ∈ filter P l2) as Hin by by apply list_elem_of_filter.
    destruct (filter P l2); [by apply elem_of_nil in Hin|].
    simpl in Hlen. lia.
Qed.

Lemma topo_sorted_app ns1 n ns2 m x :
  topo_sorted (ns1 ++ n :: ns2) = true →
  m ∈ n :: ns2 → x ∈ input n → x ∉ output m.
Proof.
  intros Hsorted [j Hj]%list_elem_of_lookup Hx.
  apply (topo_sorted_lookup (ns1 ++ n :: ns2) (length ns1) (length ns1 + j) n m x); try done.
  - by rewrite list_lookup_middle.
  - by rewrite lookup_app_r, Nat.add_comm, Nat.add_sub by lia.
  - lia.
Qed.

Lemma topo_sorted_before ns1 ns2 m p x :
  topo_sorted (ns1 ++ ns2) = true →
  m ∈ ns1 → p ∈ ns2 → x ∈ input m → x ∉ output p.
Proof.
  intros Hsorted [i Hi]%list_elem_of_lookup [j Hj]%list_elem_of_lookup Hx.
  apply (topo_sorted_lookup (ns1 ++ ns2) i (length ns1 + j) m p x); try done.
  - by apply lookup_app_l_Some.
  - by rewrite lookup_app_r, Nat.add_comm, Nat.add_sub by lia.
  - apply lookup_lt_Some in Hi. lia.
Qed.

Lemma elem_of_flat_map_output ns (m : NodeProto) x :
  m ∈ ns → x ∈ output m → x ∈ flat_map output ns.
Proof.
  intros Hm Hx. apply list_elem_of_In, in_flat_map. exists m.
  split; by apply list_elem_of_In.
Qed.

(** With single producers, what one node produces no other node does. *)
Lemma single_producer_app ns1 n ns2 m x :
  single_producer (ns1 ++ n :: ns2) = true →
  m ∈ ns1 ++ ns2 → x ∈ output n → x ∉ output m.
Proof.
  unfold single_producer. intros Hnd%bool_decide_eq_true Hm Hxn Hxm.
  rewrite flat_map_app in Hnd. simpl in Hnd.
  apply NoDup_app in Hnd as (_ & Hdisj & Hrest).
  apply NoDup_app in Hrest as (_ & Hdisj2 & _).
  apply elem_of_app in Hm as [Hm|Hm].
  - apply (Hdisj x); [by eapply elem_of_flat_map_output|].
    apply elem_of_app. by left.
  - apply (Hdisj2 x); [done|]. by eapply elem_of_flat_map_output.
Qed.

Section Fusion.
Context {T : Type} {numpy : Numpy T}.

(** Runs that end in environments agreeing on the graph outputs give the
    same output map. *)
Lemma execute_agree X g ns' (input_map : gmap string T) :
  (∀ x, x ∈ X → x ∉ map vi_name (graph_output g)) →
  option_Forall2 (agree_off X) (run (node g) input_map) (run ns' input_map) →
  outputs_of (execute (set_node g ns') input_map) = outputs_of (execute g input_map).
Proof.
  intros HX Hrun. unfold execute.
  rewrite !outputs_of_bind.
  change (check_inputs (set_node g ns') input_map) with (check_inputs g input_map).
  destruct (outputs_of (check_inputs g input_map)) as [[]|]; [|done]. simpl.
  change (outputs_of (run_nodes ns' input_map)) with (run ns' input_map).
  change (outputs_of (run_nodes (node g) input_map)) with (run (node g) input_map).
  destruct Hrun as [e e' Hoff|]; [|done]. simpl. f_equal.
  apply map_eq. intros k. rewrite !map_lookup_filter. simpl.
  destruct (decide (k ∈ X)) as [Hk|Hk].
  - specialize (HX k Hk).
    destruct (e !! k), (e' !! k); simpl; rewrite ?option_guard_False; done.
  - by rewrite (Hoff k Hk).
Qed.

(** Claim C1, as amended: take a graph with unique node names, one producer
    per tensor and topologically sorted nodes, and in it an adder
    [Add(a, b) -> s1] followed, not necessarily at once, by an adder
    [Add(s1, c) -> s2] (or [Add(c, s1) -> s2] when addition commutes) that
    reads the connecting tensor [s1] once. Let no other node read [s1], let
    [s1] be no graph output, and let the node order with the sum in place of
    the first adder be topologically sorted again, as it is when [c] is not
    produced between the two adders. Then the rewrite of the notebook
    succeeds, puts [Sum(a, b, c) -> s2] at the place of the first adder, and
    on every input map the rewritten graph yields an output map exactly when
    the original graph does, and the same one. This holds for every backend
    in which [Sum] adds from left to right, whatever it computes for the
    operators of the other nodes. The two conditions on the second adder are
    needed: without either the outputs change, as the two graphs of the
    counterexample below show. *)
Theorem fusion_preserves_outputs g pre mid post name1 name2 a b c s1 s2 ins2 :
  node g = pre ++ make_node "Add" [a; b] [s1] name1
               :: mid ++ make_node "Add" ins2 [s2] name2 :: post →
  (ins2 = [s1; c] ∨ (ins2 = [c; s1] ∧ ∀ x y, np_add x y = np_add y x)) →
  c ≠ s1 →
  unique_names (node g) = true →
  single_producer (node g) = true →
  topo_sorted (node g) = true →
  no_third_consumer g s1 (make_node "Add" ins2 [s2] name2) = true →
  topo_sorted (pre ++ make_node "Sum" [a; b; c] [s2] "Sum" :: mid ++ post) = true →
  fuse_pair g [make_node "Add" [a; b] [s1] name1; make_node "Add" ins2 [s2] name2]
  = Some (set_node g (pre ++ make_node "Sum" [a; b; c] [s2] "Sum" :: mid ++ post))
  ∧ ∀ input_map : gmap string T,
      outputs_of (execute (set_node g (pre ++ make_node "Sum" [a; b; c] [s2] "Sum"
                                           :: mid ++ post)) input_map)
      = outputs_of (execute g input_map).
Proof.
  set (n1 := make_node "Add" [a; b] [s1] name1).
  set (n2 := make_node "Add" ins2 [s2] name2).
  set (sm := make_node "Sum" [a; b; c] [s2] "Sum").
  intros Hnodes Hins2 Hc Hnames Hprod Hsorted Hcons Hsorted'.
  apply bool_decide_eq_true in Hnames.
  apply andb_true_iff in Hcons as [Hcons Hout].
  apply bool_decide_eq_true in Hcons. apply bool_decide_eq_true in Hout.
  unfold find_consumers, wgraph in Hcons. simpl in Hcons.
  assert (Hins2' : filter (fun x => x ≠ s1) ins2 = [c]).
  { destruct Hins2 as [->|[-> _]]; rewrite !filter_cons, filter_nil.
    - rewrite decide_False by (intros ?; done). by rewrite decide_True.
    - rewrite decide_True by done. rewrite decide_False by (intros ?; done). done. }
  assert (Hs1in : s1 ∈ ins2).
  { destruct Hins2 as [->|[-> _]]; [left|right; left]. }
  assert (a ≠ s2 ∧ b ≠ s2) as [Ha Hb].
  { split; intros ->.
    - apply (topo_sorted_app pre sm (mid ++ post) sm s2 Hsorted'); [left|left|left].
    - apply (topo_sorted_app pre sm (mid ++ post) sm s2 Hsorted'); [left|right; left|left]. }
  split.
  { unfold fuse_pair, Sum_node.
    rewrite (input_list_pair n1 n2 s1 s2) by done. simpl.
    rewrite !filter_cons, filter_nil, !decide_True by done. rewrite Hins2'. simpl.
    apply replace_pair_app; done. }
  intros input_map. apply (execute_agree [s1]).
  { intros x ->%list_elem_of_singleton. done. }
  rewrite Hnodes.
  assert (Hread : ∀ m, m ∈ (pre ++ n1 :: mid) ++ post → s1 ∉ input m).
  { apply (filter_singleton_app (fun n => s1 ∈ input n) _ _ n2).
    rewrite <- Hcons, Hnodes. by rewrite <- app_assoc. }
  apply (fusion_run_agree pre mid post n1 n2 sm a b c s1 s2); try done.
  - intros m Hm. repeat split.
    + apply Hread. apply elem_of_app. left. apply elem_of_app. right. by right.
    + rewrite Hnodes in Hsorted.
      replace (pre ++ n1 :: mid ++ n2 :: post) with ((pre ++ n1 :: mid) ++ n2 :: post)
        in Hsorted by by rewrite <- app_assoc.
      intros Hin. apply (topo_sorted_before _ _ m n2 s2 Hsorted); [|left|done|left].
      apply elem_of_app. right. by right.
    + rewrite Hnodes in Hprod.
      apply (single_producer_app pre n1 (mid ++ n2 :: post) m s1 Hprod); [|left].
      apply elem_of_app. right. apply elem_of_app. by left.
    + rewrite Hnodes in Hprod.
      replace (pre ++ n1 :: mid ++ n2 :: post) with ((pre ++ n1 :: mid) ++ n2 :: post)
        in Hprod by by rewrite <- app_assoc.
      apply (single_producer_app _ n2 post m s2 Hprod); [|left].
      apply elem_of_app. left. apply elem_of_app. right. by right.
    + apply (topo_sorted_app pre sm (mid ++ post) m c Hsorted').
      * right. apply elem_of_app. by left.
      * right. right. left.
  - intros m Hm. apply Hread. apply elem_of_app. by right.
Qed.
End Fusion.

Lemma fusion_preserves_outputs_witness :
  fuse_pair simple_graph [Add1_node; Add2_node] = Some fused_graph
  ∧ ∀ input_map : gmap string tensor44,
      outputs_of (execute fused_graph input_map)
      = outputs_of (execute simple_graph input_map).
Proof.
  apply (fusion_preserves_outputs simple_graph [] [] [Abs_node; Add3_node; Round_node]
           "Add1" "Add2" "in1" "in2" "in3" "sum1" "sum2" ["sum1"; "in3"]).
  - reflexivity.
  - left. reflexivity.
  - discriminate.
  - vm_compute. reflexivity.
  - vm_compute. reflexivity.
  - vm_compute. reflexivity.
  - vm_compute. reflexivity.
  - vm_compute. reflexivity.
Defined.

(** The general claim fails in two ways.

    First, where the second adder reads the connecting tensor twice
    ([doubling_graph]). The graph is well formed, the pair (Add1, Add2) is
    the one the search finds, no other node reads [sum1] and [sum1] is no
    graph output; the filter of cell 19 drops both occurrences of [sum1] and
    the rewrite leaves the single node [Sum(in1, in2) -> sum2]. On
    [in1 = 1], [in2 = 0] the original graph yields [sum2 = 2] and the
    rewritten graph [sum2 = 1].

    Second, where the other operand of the second adder is produced between
    the two adders ([interleaved_graph]). Again the graph is well formed and
    the precondition holds, and the second adder reads [sum1] once; cell 22
    puts [Sum(in1, in2, abs3) -> sum2] at the index of Add1, before the node
    that produces [abs3], so the node order is no longer topological. On
    [in1 = 1], [in2 = 2], [in3 = -3] the original graph yields [sum2 = 6]
    and the execution of the rewritten graph, node by node in graph order,
    fails at the sum node. *)
Lemma fusion_changes_outputs_counterexample :
  (unique_names (node doubling_graph) = true
   ∧ single_producer (node doubling_graph) = true
   ∧ topo_sorted (node doubling_graph) = true
   ∧ find_substitute_pair (wrap_model (qonnx_make_model doubling_graph "simple-model"))
       (identify_adder_nodes (wrap_model (qonnx_make_model doubling_graph "simple-model")))
     = Some [Add1_node; Add2_twice_node]
   ∧ no_third_consumer doubling_graph "sum1" Add2_twice_node = true
   ∧ fuse_adders doubling_graph = Some fused_doubling_graph
   ∧ topo_sorted (node fused_doubling_graph) = true
   ∧ execute doubling_graph doubling_inputs = Ok {[ "sum2" := full44 2 ]}
   ∧ execute fused_doubling_graph doubling_inputs = Ok {[ "sum2" := full44 1 ]}
   ∧ outputs_of (execute fused_doubling_graph doubling_inputs)
     ≠ outputs_of (execute doubling_graph doubling_inputs))
  ∧ (unique_names (node interleaved_graph) = true
     ∧ single_producer (node interleaved_graph) = true
     ∧ topo_sorted (node interleaved_graph) = true
     ∧ find_substitute_pair (wrap_model (qonnx_make_model interleaved_graph "simple-model"))
         (identify_adder_nodes (wrap_model (qonnx_make_model interleaved_graph "simple-model")))
       = Some [Add1_node; Add2_late_node]
     ∧ no_third_consumer interleaved_graph "sum1" Add2_late_node = true
     ∧ input Add2_late_node = ["sum1"; "abs3"]
     ∧ fuse_adders interleaved_graph = Some fused_interleaved_graph
     ∧ topo_sorted (node fused_interleaved_graph) = false
     ∧ execute interleaved_graph interleaved_inputs = Ok {[ "sum2" := full44 6 ]}
     ∧ execute fused_interleaved_graph interleaved_inputs = Err (ExecutionError "Sum")
     ∧ outputs_of (execute fused_interleaved_graph interleaved_inputs)
       ≠ outputs_of (execute interleaved_graph interleaved_inputs)).
Proof.
  split.
  - repeat split; try (vm_compute; reflexivity).
    intros Heq.
    apply (f_equal (fun o => o ≫= (fun out : gmap string tensor44 => out !! "sum2"))) in Heq.
    vm_compute in Heq. discriminate.
  - repeat split; try (vm_compute; reflexivity).
    vm_compute. discriminate.
Qed.

(** ** The example graph against the reference function *)

Section Reference.
Context {T : Type} {numpy : Numpy T}.

Lemma check_inputs_example (v1 v2 v3 : T) g :
  graph_input g = [in1; in2; in3] →
  t_shape v1 = [4; 4]%Z → t_shape v2 = [4; 4]%Z → t_shape v3 = [4; 4]%Z →
  check_inputs g (input_dict v1 v2 v3) = Ok tt.
Proof.
  intros Hg H1 H2 H3. unfold check_inputs. rewrite Hg. simpl.
  change (input_dict v1 v2 v3 !! "in1") with (Some v1).
  change (input_dict v1 v2 v3 !! "in2") with (Some v2).
  change (input_dict v1 v2 v3 !! "in3") with (Some v3).
  cbv beta iota. rewrite H1, H2, H3, !decide_True by done. done.
Qed.

(** Cells 11 and 12, and 25 and 26: on inputs of the declared shape both
    the example graph and the fused graph compute [expected_output]. *)
Lemma example_graphs_match_reference (v1 v2 v3 : T) :
  t_shape v1 = [4; 4]%Z → t_shape v2 = [4; 4]%Z → t_shape v3 = [4; 4]%Z →
  execute simple_graph (input_dict v1 v2 v3) = Ok {[ "out1" := expected_output v1 v2 v3 ]}
  ∧ execute fused_graph (input_dict v1 v2 v3) = Ok {[ "out1" := expected_output v1 v2 v3 ]}.
Proof.
  intros H1 H2 H3. unfold execute.
  rewrite !check_inputs_example by done.
  split; vm_compute; reflexivity.
Qed.
End Reference.

(** * Further properties of the notebook code *)

(** ** The node index dictionary *)

(** A name that occurs in a list of nodes has a last occurrence. *)
Lemma last_occurrence (nm : string) (l : list NodeProto) :
  nm ∈ map name l →
  ∃ pre n rest, l = pre ++ n :: rest ∧ name n = nm ∧ nm ∉ map name rest.
Proof.
  induction l as [|a l IH]; intros Hin; [by apply elem_of_nil in Hin|].
  destruct (decide (nm ∈ map name l)) as [Hl|Hl].
  - destruct (IH Hl) as (pre & n & rest & -> & Hn & Hrest).
    by exists (a :: pre), n, rest.
  - simpl in Hin. apply elem_of_cons in Hin as [->|Hin]; [|done].
    by exists [], a, l.
Qed.

Lemma get_node_id_None model nm :
  get_node_id model !! nm = None ↔ nm ∉ map name (node (wgraph model)).
Proof.
  split.
  - intros Hnone Hin. destruct (last_occurrence nm _ Hin) as (pre & n & rest & Hl & <- & Hrest).
    by rewrite (get_node_id_lookup model pre n rest) in Hnone.
  - intros Hnot. unfold get_node_id.
    destruct (node_ids_fold (node (wgraph model)) ∅ 0) as [_ Hm].
    by rewrite Hm.
Qed.

Lemma get_node_id_Some model nm (i : nat) :
  get_node_id model !! nm = Some i ↔
  ∃ n, node (wgraph model) !! i = Some n ∧ name n = nm
       ∧ nm ∉ map name (drop (S i) (node (wgraph model))).
Proof.
  split.
  - intros Hsome.
    destruct (decide (nm ∈ map name (node (wgraph model)))) as [Hin|Hnot].
    + destruct (last_occurrence nm _ Hin) as (pre & n & rest & Hl & <- & Hrest).
      rewrite (get_node_id_lookup model pre n rest) in Hsome by done.
      injection Hsome as <-. exists n. rewrite Hl. split; [by apply list_lookup_middle|].
      split; [done|].
      rewrite (cons_middle n pre rest), app_assoc.
      by rewrite drop_app_length' by (rewrite length_app; simpl; lia).
    + apply get_node_id_None in Hnot. congruence.
  - intros (n & Hi & <- & Hrest).
    pose proof (take_drop_middle _ _ _ Hi) as Hl.
    rewrite (get_node_id_lookup model (take i (node (wgraph model))) n
               (drop (S i) (node (wgraph model)))) by done.
    f_equal. apply length_take_le. apply lookup_lt_Some in Hi. lia.
Qed.

Lemma not_elem_of_names_drop (nm : string) (l : list NodeProto) (i : nat) :
  nm ∉ map name (drop i l) ↔
  ∀ (j : nat) n', (i ≤ j)%nat → l !! j = Some n' → name n' ≠ nm.
Proof.
  split.
  - intros Hnot j n' Hj Hl <-. apply Hnot.
    apply (list_elem_of_fmap_2 name). apply list_elem_of_lookup.
    exists (j - i)%nat. rewrite lookup_drop. by replace (i + (j - i))%nat with j by lia.
  - intros Hall (n' & -> & Hin)%list_elem_of_fmap.
    apply list_elem_of_lookup in Hin as [k Hk]. rewrite lookup_drop in Hk.
    by apply (Hall (i + k)%nat n'); [lia|done|].
Qed.

(** X1. [get_node_id] maps a name to the index of the last node of that
    name, and holds no entry (a [KeyError] on lookup) exactly for the names
    no node has. *)
Theorem get_node_id_last_index model nm :
  (∀ i : nat,
     get_node_id model !! nm = Some i ↔
     (∃ n, node (wgraph model) !! i = Some n ∧ name n = nm)
     ∧ ∀ (j : nat) n', (i < j)%nat → node (wgraph model) !! j = Some n' → name n' ≠ nm)
  ∧ (get_node_id model !! nm = None ↔ ∀ n, n ∈ node (wgraph model) → name n ≠ nm).
Proof.
  split.
  - intros i. rewrite get_node_id_Some. split.
    + intros (n & Hi & Hn & Hlater). split; [by exists n|].
      intros j n' Hj. by apply (proj1 (not_elem_of_names_drop nm _ (S i)) Hlater).
    + intros [(n & Hi & Hn) Hlater]. exists n. split; [done|]. split; [done|].
      apply not_elem_of_names_drop. intros j n' Hj. apply Hlater. lia.
  - rewrite get_node_id_None. split.
    + intros Hnot n Hn <-. apply Hnot. by apply (list_elem_of_fmap_2 name).
    + intros Hall (n & -> & Hn)%list_elem_of_fmap. by apply (Hall n).
Qed.

Lemma dom_get_node_id model :
  dom (get_node_id model) = list_to_set (map name (node (wgraph model))).
Proof.
  apply set_eq. intros nm. rewrite elem_of_dom, elem_of_list_to_set.
  rewrite <- not_eq_None_Some, get_node_id_None.
  split; [apply dec_stable|by intros ? ?].
Qed.

(** X2. With unique node names the dictionary is the inverse of indexing:
    the name of the node at index [i] is mapped to [i], and there is one
    entry per node. *)
Theorem get_node_id_inverse_of_indexing model :
  unique_names (node (wgraph model)) = true →
  (∀ (i : nat) n, node (wgraph model) !! i = Some n → get_node_id model !! name n = Some i)
  ∧ size (get_node_id model) = length (node (wgraph model)).
Proof.
  intros Huniq%bool_decide_eq_true. split.
  - intros i n Hi. apply get_node_id_Some. exists n. split; [done|]. split; [done|].
    rewrite <- (take_drop_middle _ _ _ Hi) in Huniq.
    rewrite map_app in Huniq. apply NoDup_app in Huniq as (_ & _ & Huniq).
    simpl in Huniq. by apply NoDup_cons in Huniq as [? _].
  - rewrite <- size_dom, dom_get_node_id, size_list_to_set, length_map; done.
Qed.

Lemma get_node_id_inverse_of_indexing_witness :
  (∀ (i : nat) n, node (wgraph finn_model) !! i = Some n →
                  get_node_id finn_model !! name n = Some i)
  ∧ size (get_node_id finn_model) = length (node (wgraph finn_model)).
Proof.
  apply (get_node_id_inverse_of_indexing finn_model).
  vm_compute. reflexivity.
Defined.

(** ** The search loop and the no-pair case *)

Lemma rebind_last {A} (ps : list A) (acc : option A) :
  foldl (fun _ i => ps !! i) acc (seq 0 (length ps))
  = match last ps with Some p => Some p | None => acc end.
Proof.
  rewrite last_lookup. destruct (length ps) as [|k] eqn:Hlen.
  - simpl. apply length_zero_iff_nil in Hlen. by subst.
  - rewrite seq_S, foldl_app. simpl.
    destruct (ps !! k) eqn:Hk; [done|].
    apply lookup_ge_None in Hk. lia.
Qed.

Lemma find_substitute_pair_from model (add_nodes : list NodeProto)
    (acc : option (list NodeProto)) :
  foldl (fun substitute_pair n =>
           let add_pairs := adder_pair model n in
           if negb (length add_pairs =? 0)%nat
           then foldl (fun _ i => add_pairs !! i) substitute_pair (seq 0 (length add_pairs))
           else substitute_pair)
        acc add_nodes
  = match last (all_adder_pairs model add_nodes) with Some p => Some p | None => acc end.
Proof.
  revert acc. induction add_nodes as [|n ns IH]; intros acc; [done|].
  simpl. rewrite IH. unfold all_adder_pairs. simpl. rewrite last_app.
  destruct (last (flat_map (adder_pair model) ns)); [done|].
  rewrite rebind_last.
  destruct (adder_pair model n) as [|p ps]; [done|]. simpl. done.
Qed.

Lemma find_substitute_pair_last model add_nodes :
  find_substitute_pair model add_nodes = last (all_adder_pairs model add_nodes).
Proof.
  unfold find_substitute_pair. rewrite find_substitute_pair_from.
  by destruct (last _).
Qed.

(** X3. After the search loop [substitute_pair] holds the last pair the
    loop has found, that is the last adder pair of the last adder that has
    one; it is unbound exactly when no adder has an adder behind it. *)
Theorem substitute_pair_is_last_found model add_nodes :
  find_substitute_pair model add_nodes = last (all_adder_pairs model add_nodes)
  ∧ (find_substitute_pair model add_nodes = None
     ↔ ∀ n, n ∈ add_nodes → adder_pair model n = []).
Proof.
  split; [apply find_substitute_pair_last|].
  rewrite find_substitute_pair_last, last_None. unfold all_adder_pairs. split.
  - intros Hnil n Hn. destruct (adder_pair model n) as [|p ps] eqn:Hp; [done|].
    assert (p ∈ flat_map (adder_pair model) add_nodes) as Hin.
    { apply list_elem_of_In, in_flat_map. exists n.
      split; apply list_elem_of_In; [done|]. rewrite Hp. left. }
    rewrite Hnil in Hin. by apply elem_of_nil in Hin.
  - intros Hall. induction add_nodes as [|n ns IH]; [done|].
    simpl. rewrite (Hall n) by left. apply IH. intros m Hm. apply Hall. by right.
Qed.

(** ** Building the sum node: failures and what it reads *)

Lemma append_inputs_no_output other this l :
  other ≫= output0 = None →
  append_inputs other this l = match input this with [] => Some l | _ => None end.
Proof.
  intros Hnone. unfold append_inputs. rewrite Hnone.
  destruct (input this) as [|x ins]; [done|]. simpl.
  induction ins as [|y ins IH]; [done|]. simpl. done.
Qed.

Lemma output0_None n : output0 n = None ↔ output n = [].
Proof. unfold output0. by destruct (output n). Qed.

(** The two passes of cell 19 on a pair. *)
Lemma input_list_pair_kept n1 n2 :
  input_list [n1; n2]
  = l1 ← kept_inputs (input n1) (output0 n2);
    l2 ← kept_inputs (input n2) (output0 n1);
    Some (l1 ++ l2).
Proof.
  unfold input_list, kept_inputs. simpl.
  destruct (output0 n2) as [o2|] eqn:H2.
  - rewrite (append_inputs_filter n2 n1 [] o2 H2). simpl.
    assert (Hfst : match input n1 with
                   | [] => Some []
                   | _ :: _ => Some (filter (fun x => x ≠ o2) (input n1))
                   end = Some (filter (fun x => x ≠ o2) (input n1))).
    { by destruct (input n1). }
    rewrite Hfst. simpl.
    destruct (output0 n1) as [o1|] eqn:H1.
    + rewrite (append_inputs_filter n1 n2 _ o1 H1).
      destruct (input n2); [by rewrite filter_nil|done].
    + rewrite append_inputs_no_output by done.
      destruct (input n2); [simpl; by rewrite app_nil_r|done].
  - rewrite append_inputs_no_output by done.
    destruct (input n1) as [|x ins]; [|done]. simpl.
    destruct (output0 n1) as [o1|] eqn:H1.
    + rewrite (append_inputs_filter n1 n2 _ o1 H1).
      destruct (input n2); [by rewrite filter_nil|done].
    + rewrite append_inputs_no_output by done. by destruct (input n2).
Qed.

Lemma kept_inputs_Some ins o r :
  kept_inputs ins o = Some r →
  r `sublist_of` ins ∧ ∀ x, x ∈ r → x ∈ ins ∧ o ≠ Some x.
Proof.
  unfold kept_inputs. destruct ins as [|y ins].
  - intros [= <-]. split; [done|]. by intros x ?%elem_of_nil.
  - destruct o as [o'|]; [|done]. intros [= <-]. split; [apply sublist_filter|].
    intros x [Hne Hin]%list_elem_of_filter. split; [done|]. congruence.
Qed.

(** X4. Cells 19 to 21 raise an [IndexError] on a pair exactly when the
    second node has no output, or has an input while the first node has no
    output; otherwise they build a node of type and name [Sum] whose only
    output is the first output of the second node. *)
Theorem Sum_node_failure n1 n2 :
  (Sum_node [n1; n2] = None
   ↔ output n2 = [] ∨ (input n2 ≠ [] ∧ output n1 = []))
  ∧ (∀ sm, Sum_node [n1; n2] = Some sm →
       op_type sm = "Sum" ∧ name sm = "Sum" ∧ ∃ o2, output0 n2 = Some o2 ∧ output sm = [o2]).
Proof.
  unfold Sum_node, sum_output. rewrite input_list_pair_kept. unfold kept_inputs. simpl.
  rewrite <- !output0_None.
  destruct (output0 n2) as [o2|], (output0 n1) as [o1|],
    (input n1) as [|x1 i1], (input n2) as [|x2 i2]; simpl;
    (split; [split; [intros ?; simplify_eq|intros [?|[? ?]]; simplify_eq]
            |intros sm ?; simplify_eq; eauto]); eauto.
Qed.

(** X5. The input list of the fused node takes its entries, in order, from
    the inputs of the first node followed by those of the second; it holds
    no input of the first node equal to the second node's first output and
    no input of the second node equal to the first node's first output. So
    the connecting tensor is read by the fused node only if the first node
    reads it itself. *)
Theorem input_list_selects_inputs n1 n2 l :
  input_list [n1; n2] = Some l →
  l `sublist_of` input n1 ++ input n2
  ∧ (∀ x, x ∈ l → (x ∈ input n1 ∧ output0 n2 ≠ Some x)
                  ∨ (x ∈ input n2 ∧ output0 n1 ≠ Some x))
  ∧ (∀ s1, output0 n1 = Some s1 → s1 ∈ l → s1 ∈ input n1).
Proof.
  rewrite input_list_pair_kept. intros Hl.
  destruct (kept_inputs (input n1) (output0 n2)) as [l1|] eqn:E1; [|done].
  destruct (kept_inputs (input n2) (output0 n1)) as [l2|] eqn:E2; [|done].
  simpl in Hl. injection Hl as <-.
  apply kept_inputs_Some in E1 as [Hs1 H1]. apply kept_inputs_Some in E2 as [Hs2 H2].
  split; [by apply sublist_app|]. split.
  - intros x [Hx|Hx]%elem_of_app; [left; by apply H1|right; by apply H2].
  - intros s1 Hs [Hx|Hx]%elem_of_app; [by apply H1|].
    by destruct (H2 s1 Hx) as [_ ?].
Qed.

Lemma input_list_selects_inputs_witness :
  ["in1"; "in2"; "in3"] `sublist_of` input Add1_node ++ input Add2_node
  ∧ (∀ x, x ∈ ["in1"; "in2"; "in3"] →
          (x ∈ input Add1_node ∧ output0 Add2_node ≠ Some x)
          ∨ (x ∈ input Add2_node ∧ output0 Add1_node ≠ Some x))
  ∧ (∀ s1, output0 Add1_node = Some s1 → s1 ∈ ["in1"; "in2"; "in3"] → s1 ∈ input Add1_node).
Proof.
  apply (input_list_selects_inputs Add1_node Add2_node ["in1"; "in2"; "in3"]).
  vm_compute. reflexivity.
Defined.

(** ** Splicing: what cell 22 does to the node list *)

Lemma list_remove_first_None x l : list_remove_first x l = None ↔ x ∉ l.
Proof.
  induction l as [|y l IH]; simpl.
  - split; [intros _; apply not_elem_of_nil|done].
  - case_decide as Hy.
    + subst. split; [done|]. intros Hnot. exfalso. apply Hnot. left.
    + rewrite not_elem_of_cons, <- IH. destruct (list_remove_first x l); simpl.
      * split; [done|]. by intros [_ ?].
      * split; [|done]. intros _. split; [by intros ->|done].
Qed.

(** A removal takes out the first occurrence and nothing else. *)
Lemma list_remove_first_Some x l l' :
  list_remove_first x l = Some l' ↔
  ∃ l1 l2, l = l1 ++ x :: l2 ∧ l' = l1 ++ l2 ∧ x ∉ l1.
Proof.
  split.
  - revert l'. induction l as [|y l IH]; intros l'; simpl; [done|].
    case_decide as Hy.
    + intros [= <-]. subst. exists [], l. split; [done|]. split; [done|]. apply not_elem_of_nil.
    + destruct (list_remove_first x l) as [l0|] eqn:Hrem; [|done].
      intros [= <-]. destruct (IH l0 eq_refl) as (l1 & l2 & -> & -> & Hnot).
      exists (y :: l1), l2. split; [done|]. split; [done|].
      apply not_elem_of_cons. split; [by intros ->|done].
  - intros (l1 & l2 & -> & -> & Hnot). by apply list_remove_first_app.
Qed.

Lemma list_insert_at_Permutation {A} (i : nat) (x : A) (l : list A) :
  list_insert_at i x l ≡ₚ x :: l.
Proof.
  unfold list_insert_at. rewrite <- Permutation_middle. by rewrite take_drop.
Qed.

Lemma remove_all_Some (pair l l' : list NodeProto) :
  foldl (fun acc n => l ← acc; list_remove_first n l) (Some l) pair = Some l' →
  pair ++ l' ≡ₚ l ∧ l' `sublist_of` l.
Proof.
  revert l. induction pair as [|n pair IH]; intros l; simpl.
  - by intros [= <-].
  - destruct (list_remove_first n l) as [l0|] eqn:Hrem.
    + intros [Hperm Hsub]%IH.
      apply list_remove_first_Some in Hrem as (l1 & l2 & -> & -> & _). split.
      * rewrite <- Permutation_middle. by rewrite Hperm.
      * etrans; [done|]. apply sublist_app; [done|]. by apply sublist_cons.
    + intros Hfail. exfalso. clear IH Hrem.
      induction pair as [|m pair IH]; simpl in Hfail; [done|]. by apply IH.
Qed.

Lemma replace_pair_Some model g pair new_node g' :
  replace_pair model g pair new_node = Some g' →
  ∃ first (node_ind : nat),
    pair !! 0%nat = Some first
    ∧ get_node_id model !! name first = Some node_ind
    ∧ g' = set_node g (node g')
    ∧ pair ++ node g' ≡ₚ new_node :: node g
    ∧ node g' `sublist_of` list_insert_at node_ind new_node (node g).
Proof.
  unfold replace_pair. intros Hrep.
  destruct (pair !! 0%nat) as [first|] eqn:Hfirst; [|done]. simpl in Hrep.
  destruct (get_node_id model !! name first) as [node_ind|] eqn:Hid; [|done].
  simpl in Hrep.
  destruct (foldl _ (Some (list_insert_at node_ind new_node (node g))) pair)
    as [ns|] eqn:Hfold; [|done].
  simpl in Hrep. injection Hrep as <-.
  apply remove_all_Some in Hfold as [Hperm Hsub].
  exists first, node_ind. repeat split; try done.
  simpl. by rewrite Hperm, list_insert_at_Permutation.
Qed.

(** X6. When cell 22 succeeds, the new node list together with the removed
    pair is a rearrangement of the old node list with the new node: nothing
    else is added or lost, so the list is shorter by the length of the pair
    less one. The nodes that stay keep their order around the node
    inserted at the index recorded for the first node's name, and the graph
    inputs, outputs and value infos (the entry of a removed tensor
    included) are untouched. *)
Theorem replace_pair_rearranges model g pair new_node g' :
  replace_pair model g pair new_node = Some g' →
  pair ++ node g' ≡ₚ new_node :: node g
  ∧ (length (node g') + length pair = S (length (node g)))%nat
  ∧ (∃ first (node_ind : nat),
       pair !! 0%nat = Some first
       ∧ get_node_id model !! name first = Some node_ind
       ∧ node g' `sublist_of` list_insert_at node_ind new_node (node g))
  ∧ graph_input g' = graph_input g
  ∧ graph_output g' = graph_output g
  ∧ value_info g' = value_info g.
Proof.
  intros (first & node_ind & Hfirst & Hid & Hg' & Hperm & Hsub)%replace_pair_Some.
  split; [done|]. split.
  { pose proof (Permutation_length Hperm) as Hlen.
    rewrite length_app in Hlen. simpl in Hlen. lia. }
  split; [by exists first, node_ind|].
  by rewrite Hg'.
Qed.

Lemma replace_pair_rearranges_witness :
  [Add1_node; Add2_node] ++ node fused_graph ≡ₚ fused_node :: node simple_graph
  ∧ (length (node fused_graph) + length [Add1_node; Add2_node]
     = S (length (node simple_graph)))%nat
  ∧ (∃ first (node_ind : nat),
       [Add1_node; Add2_node] !! 0%nat = Some first
       ∧ get_node_id finn_model !! name first = Some node_ind
       ∧ node fused_graph `sublist_of` list_insert_at node_ind fused_node (node simple_graph))
  ∧ graph_input fused_graph = graph_input simple_graph
  ∧ graph_output fused_graph = graph_output simple_graph
  ∧ value_info fused_graph = value_info simple_graph.
Proof.
  apply (replace_pair_rearranges finn_model simple_graph [Add1_node; Add2_node] fused_node).
  vm_compute. reflexivity.
Defined.

(** X7. Cell 22 fails with a [KeyError] when no node of the wrapped model
    carries the name of the pair's first node, whatever the graph and the
    new node are. *)
Theorem replace_pair_unknown_name model g first rest new_node :
  (∀ n, n ∈ node (wgraph model) → name n ≠ name first) →
  replace_pair model g (first :: rest) new_node = None.
Proof.
  intros Hnone. unfold replace_pair. simpl.
  assert (get_node_id model !! name first = None) as ->; [|done].
  apply get_node_id_None. intros (n & Heq & Hn)%list_elem_of_fmap.
  by apply (Hnone n).
Qed.

Lemma replace_pair_unknown_name_witness :
  replace_pair finn_model simple_graph (fused_node :: [Add2_node]) fused_node = None.
Proof.
  apply (replace_pair_unknown_name finn_model simple_graph fused_node [Add2_node] fused_node).
  intros n Hn. vm_compute in Hn.
  repeat (apply elem_of_cons in Hn as [->|Hn]; [discriminate|]).
  by apply elem_of_nil in Hn.
Defined.

(** ** The whole rewrite *)

(** The pair the search loop leaves behind consists of two adders. *)
Lemma find_substitute_pair_adders model pair :
  find_substitute_pair model (identify_adder_nodes model) = Some pair →
  ∃ n1 n2, pair = [n1; n2] ∧ op_type n1 = "Add" ∧ op_type n2 = "Add"
           ∧ n1 ∈ node (wgraph model) ∧ n2 ∈ find_direct_successors model n1.
Proof.
  rewrite find_substitute_pair_last. intros Hlast%last_Some_elem_of.
  unfold all_adder_pairs in Hlast.
  apply list_elem_of_In, in_flat_map in Hlast as (n1 & Hn1 & Hpair).
  apply list_elem_of_In in Hn1, Hpair.
  rewrite identify_adder_nodes_filter in Hn1. apply list_elem_of_filter in Hn1 as [Hop1 Hn1].
  apply elem_of_adder_pair in Hpair as (n2 & -> & Hop2 & Hsucc).
  by exists n1, n2.
Qed.

(** X8. On a graph in which no adder is followed by an adder, cells 16 to
    23 stop with a [NameError], [substitute_pair] never having been bound:
    nothing is rewritten. *)
Theorem fuse_adders_without_pair g :
  all_adder_pairs (wrap_model (qonnx_make_model g "simple-model"))
    (identify_adder_nodes (wrap_model (qonnx_make_model g "simple-model"))) = [] →
  fuse_adders g = None.
Proof.
  intros Hnil. unfold fuse_adders. cbv zeta.
  by rewrite find_substitute_pair_last, Hnil.
Qed.

Lemma fuse_adders_without_pair_witness : fuse_adders fused_graph = None.
Proof.
  apply (fuse_adders_without_pair fused_graph). vm_compute. reflexivity.
Defined.

(** X9. Whenever cells 16 to 23 succeed, the graph has one node less and
    two adders less than before, and one more [Sum] node: the rewrite can
    be repeated only finitely often. *)
Theorem fuse_adders_removes_two_adders g g' :
  fuse_adders g = Some g' →
  (length (node g') + 1 = length (node g))%nat
  ∧ (length (identify_adder_nodes (wrap_model (qonnx_make_model g' "simple-model"))) + 2
     = length (identify_adder_nodes (wrap_model (qonnx_make_model g "simple-model"))))%nat
  ∧ (length (filter (fun n => op_type n = "Sum") (node g'))
     = S (length (filter (fun n => op_type n = "Sum") (node g))))%nat.
Proof.
  unfold fuse_adders. cbv zeta. intros Hfuse.
  destruct (find_substitute_pair _ _) as [pair|] eqn:Hpair; [|done].
  apply find_substitute_pair_adders in Hpair as (n1 & n2 & -> & Hop1 & Hop2 & _).
  simpl in Hfuse.
  destruct (Sum_node [n1; n2]) as [sm|] eqn:Hsm; [|done]. simpl in Hfuse.
  assert (op_type sm = "Sum") as Hops.
  { unfold Sum_node in Hsm. destruct (input_list [n1; n2]); [|done].
    destruct (sum_output [n1; n2]); [|done]. by injection Hsm as <-. }
  apply replace_pair_Some in Hfuse as (_ & _ & _ & _ & _ & Hperm & _).
  split; [|split].
  - apply Permutation_length in Hperm. simpl in Hperm. lia.
  - rewrite !identify_adder_nodes_filter. unfold wgraph. simpl.
    apply (filter_Permutation (fun n => op_type n = "Add")) in Hperm.
    apply Permutation_length in Hperm. simpl in Hperm.
    rewrite !filter_cons, !decide_True in Hperm by done.
    rewrite decide_False in Hperm by (rewrite Hops; discriminate).
    simpl in Hperm. lia.
  - apply (filter_Permutation (fun n => op_type n = "Sum")) in Hperm.
    apply Permutation_length in Hperm. simpl in Hperm.
    rewrite !filter_cons in Hperm.
    rewrite !decide_False, decide_True in Hperm
      by (done || rewrite ?Hop1, ?Hop2; discriminate).
    simpl in Hperm. lia.
Qed.

Lemma fuse_adders_removes_two_adders_witness :
  (length (node fused_graph) + 1 = length (node simple_graph))%nat
  ∧ (length (identify_adder_nodes (wrap_model (qonnx_make_model fused_graph "simple-model"))) + 2
     = length (identify_adder_nodes (wrap_model (qonnx_make_model simple_graph "simple-model"))))%nat
  ∧ (length (filter (fun n => op_type n = "Sum") (node fused_graph))
     = S (length (filter (fun n => op_type n = "Sum") (node simple_graph))))%nat.
Proof.
  apply (fuse_adders_removes_two_adders simple_graph fused_graph).
  vm_compute. reflexivity.
Defined.

(** ** Rows of an array *)

Lemma length_rows_of r c (data : list Z) : length (rows_of r c data) = r.
Proof. revert data. induction r as [|r IH]; intros data; simpl; [done|]. by rewrite IH. Qed.

Lemma rows_of_uniform r c (data : list Z) :
  length data = (r * c)%nat → Forall (fun row => length row = c) (rows_of r c data).
Proof.
  revert data. induction r as [|r IH]; intros data Hlen; simpl; constructor.
  - rewrite length_take. lia.
  - apply IH. rewrite length_drop. lia.
Qed.

Lemma concat_rows_of r c (data : list Z) :
  length data = (r * c)%nat → concat (rows_of r c data) = data.
Proof.
  revert data. induction r as [|r IH]; intros data Hlen; simpl.
  - symmetry. by apply length_zero_iff_nil.
  - rewrite IH by (rewrite length_drop; lia). apply take_drop.
Qed.

Lemma rows_of_concat w (ls : list (list Z)) :
  Forall (fun row => length row = w) ls → rows_of (length ls) w (concat ls) = ls.
Proof.
  induction 1 as [|row ls Hrow _ IH]; simpl; [done|].
  by rewrite take_app_length', drop_app_length', IH.
Qed.

Lemma length_concat_uniform w (ls : list (list Z)) :
  Forall (fun row => length row = w) ls → length (concat ls) = (length ls * w)%nat.
Proof.
  induction 1 as [|row ls Hrow _ IH]; simpl; [done|]. rewrite length_app. lia.
Qed.

(** Padding on the right appends zeros to every row. *)
Lemma np_pad_right a (r c k : nat) :
  nd_shape a = [Z.of_nat r; Z.of_nat c] →
  np_pad a ((0, 0), (0, k))%nat
  = Some (mk_ndarray [Z.of_nat r; Z.of_nat (c + k)]
            (concat (map (fun row => row ++ replicate k 0%Z) (rows_of r c (nd_data a))))).
Proof.
  intros Hshape. unfold np_pad. rewrite Hshape, !Nat2Z.id.
  cbn [replicate app]. rewrite app_nil_r.
  replace (Z.of_nat 0 + Z.of_nat r + Z.of_nat 0)%Z with (Z.of_nat r) by lia.
  replace (Z.of_nat 0 + Z.of_nat c + Z.of_nat k)%Z with (Z.of_nat (c + k)) by lia.
  done.
Qed.

Lemma length_padded_rows (r c k : nat) (data : list Z) :
  length data = (r * c)%nat →
  length (concat (map (fun row => row ++ replicate k 0%Z) (rows_of r c data)))
  = (r * (c + k))%nat.
Proof.
  intros Hlen. rewrite (length_concat_uniform (c + k)).
  - by rewrite length_map, length_rows_of.
  - apply Forall_fmap. eapply Forall_impl; [by apply rows_of_uniform|].
    intros row Hrow. simpl. by rewrite length_app, length_replicate, Hrow.
Qed.

(** ** What [inference_with_finn_onnx] accepts *)

Lemma elem_of_padded_rows (k : nat) (rows : list (list Z)) x :
  x ∈ concat (map (fun row => row ++ replicate k 0%Z) rows) → x ∈ concat rows ∨ x = 0%Z.
Proof.
  induction rows as [|row rows IH]; simpl; [by intros ?%elem_of_nil|].
  rewrite !elem_of_app. intros [[Hx|Hx]|Hx].
  - by left; left.
  - apply elem_of_replicate in Hx as [-> _]. by right.
  - destruct (IH Hx) as [?|?]; [by left; right|by right].
Qed.

(** X10. For an array of [r] rows and [c] columns and a model input shape of
    non-negative extents, [inference_with_finn_onnx] reaches the executor
    exactly when the shape holds [r * (c + 7)] elements, and then hands it
    every row padded with seven zeros, rescaled by [2*x-1] and laid out in
    the model's shape; in every other case it raises before the executor is
    called. With the shape [1, 600] it therefore accepts a single row of 593
    columns, but also, say, two rows of 293 columns. The entries are
    integers below [2^23] in magnitude, on which the float32 arithmetic of
    the code is exact: every value handed over is an integer below [2^24]
    in magnitude. *)
Theorem inference_with_finn_onnx_input_size
    model_for_sim current_inp (r c : nat) tensor out_tensor in_shape :
  nd_shape current_inp = [Z.of_nat r; Z.of_nat c] →
  length (nd_data current_inp) = (r * c)%nat →
  forallb (fun x => Z.abs x <? 8388608)%Z (nd_data current_inp) = true →
  vi_name <$> graph_input (wgraph model_for_sim) !! 0%nat = Some tensor →
  get_tensor_shape model_for_sim tensor = Some in_shape →
  forallb (fun d => 0 <=? d)%Z in_shape = true →
  vi_name <$> graph_output (wgraph model_for_sim) !! 0%nat = Some out_tensor →
  (∀ execute_onnx,
     inference_with_finn_onnx execute_onnx model_for_sim current_inp
     = if decide (foldr Z.mul 1%Z in_shape = Z.of_nat (r * (c + 7)))
       then execute_onnx model_for_sim
              {[ tensor := mk_ndarray in_shape
                   (map (fun x => 2 * x - 1)%Z
                      (concat (map (fun row => row ++ replicate 7 0%Z)
                                   (rows_of r c (nd_data current_inp))))) ]}
            ≫= (fun output_dict => output_dict !! out_tensor)
       else None)
  ∧ Forall (fun v => Z.abs v < 16777216)%Z
      (map (fun x => 2 * x - 1)%Z
         (concat (map (fun row => row ++ replicate 7 0%Z)
                      (rows_of r c (nd_data current_inp))))).
Proof.
  intros Hshape Hlen Hsmall Hname Hin Hpos Hout. split.
  - intros execute_onnx. unfold inference_with_finn_onnx.
    rewrite Hname. cbn [mbind option_bind]. rewrite Hin, Hout.
    rewrite (np_pad_right current_inp r c 7) by done.
    cbn [mbind option_bind]. unfold reshape, rescale_bipolar. cbn [nd_data nd_shape].
    rewrite Hpos, length_map, length_padded_rows by done. cbn [andb].
    case_decide as Hsize.
    + by rewrite (proj2 (Z.eqb_eq _ _) Hsize).
    + by rewrite (proj2 (Z.eqb_neq _ _) Hsize).
  - apply Forall_fmap, Forall_forall. intros x Hx. simpl.
    apply elem_of_padded_rows in Hx as [Hx| ->]; [|lia].
    rewrite concat_rows_of in Hx by done.
    rewrite forallb_forall in Hsmall. apply list_elem_of_In, Hsmall in Hx.
    apply Z.ltb_lt in Hx. lia.
Qed.

Lemma inference_with_finn_onnx_input_size_witness :
  (∀ execute_onnx,
     inference_with_finn_onnx execute_onnx mlp_interface two_short_rows
     = if decide (foldr Z.mul 1%Z [1; 600]%Z = Z.of_nat (2 * (293 + 7)))
       then execute_onnx mlp_interface
              {[ "global_in" := mk_ndarray [1; 600]%Z
                   (map (fun x => 2 * x - 1)%Z
                      (concat (map (fun row => row ++ replicate 7 0%Z)
                                   (rows_of 2 293 (nd_data two_short_rows))))) ]}
            ≫= (fun output_dict => output_dict !! "global_out")
       else None)
  ∧ Forall (fun v => Z.abs v < 16777216)%Z
      (map (fun x => 2 * x - 1)%Z
         (concat (map (fun row => row ++ replicate 7 0%Z)
                      (rows_of 2 293 (nd_data two_short_rows))))).
Proof.
  apply (inference_with_finn_onnx_input_size mlp_interface two_short_rows 2 293
           "global_in" "global_out" [1; 600]%Z).
  - reflexivity.
  - vm_compute. reflexivity.
  - vm_compute. reflexivity.
  - reflexivity.
  - vm_compute. reflexivity.
  - reflexivity.
  - reflexivity.
Defined.

(** ** Splitting the dataset into inputs and labels *)

Lemma zip_with_take_drop (k : nat) (rows : list (list Z)) :
  zip_with app (map (take k) rows) (map (drop k) rows) = rows.
Proof.
  induction rows as [|row rows IH]; simpl; [done|]. by rewrite take_drop, IH.
Qed.

Lemma astype_float32_exact x : (Z.abs x ≤ 16777216)%Z → astype_float32 x = x.
Proof.
  intros Hx. unfold astype_float32.
  change (2 ^ 24)%Z with 16777216%Z. by rewrite (proj2 (Z.leb_le _ _) Hx).
Qed.

Lemma astype_float32_array_exact a :
  forallb (fun x => Z.abs x <=? 16777216)%Z (nd_data a) = true →
  nd_data (astype_float32_array a) = nd_data a.
Proof.
  intros Hall. simpl. rewrite forallb_forall in Hall.
  induction (nd_data a) as [|x l IH]; [done|]. simpl.
  rewrite astype_float32_exact by (apply Z.leb_le, Hall; left; done).
  f_equal. apply IH. intros y Hy. apply Hall. by right.
Qed.

(** X11. [get_preqnt_dataset] reads the partition chosen by [train] and
    cuts every sample into its leading columns and its last column: for a
    partition of [r] samples with [c + 1] columns the inputs have shape
    [r, c], the labels have shape [r], and putting each label back behind
    its input row gives the rows of the partition. The entries are integers
    of at most [2^24] in magnitude, which the conversion to float32 keeps
    as they are. *)
Theorem get_preqnt_dataset_splits_rows
    (unsw_nb15_data : gmap string ndarray) (train : bool) part_data (r c : nat) rest :
  unsw_nb15_data !! (if train then "train" else "test") = Some part_data →
  nd_shape part_data = Z.of_nat r :: Z.of_nat (S c) :: rest →
  length (nd_data part_data) = (r * (S c * block_size rest))%nat →
  forallb (fun x => Z.abs x <=? 16777216)%Z (nd_data part_data) = true →
  ∃ part_data_in part_data_out,
    get_preqnt_dataset unsw_nb15_data train = Some (part_data_in, part_data_out)
    ∧ nd_shape part_data_in = Z.of_nat r :: Z.of_nat c :: rest
    ∧ nd_shape part_data_out = Z.of_nat r :: rest
    ∧ length (nd_data part_data_in) = (r * (c * block_size rest))%nat
    ∧ length (nd_data part_data_out) = (r * block_size rest)%nat
    ∧ zip_with app (rows_of r (c * block_size rest) (nd_data part_data_in))
                   (rows_of r (block_size rest) (nd_data part_data_out))
      = rows_of r (S c * block_size rest) (nd_data part_data).
Proof.
  intros Hpart Hshape Hlen Hexact.
  set (inner := block_size rest) in *.
  set (rows := rows_of r (S c * inner) (nd_data part_data)).
  assert (Hrows : Forall (fun row => length row = (S c * inner)%nat) rows)
    by by apply rows_of_uniform.
  assert (Hnrows : length rows = r) by apply length_rows_of.
  assert (Hin : Forall (fun row => length row = (c * inner)%nat) (map (take (c * inner)) rows)).
  { apply Forall_fmap. eapply Forall_impl; [done|]. intros row Hrow. simpl in *.
    rewrite length_take. lia. }
  assert (Hout : Forall (fun row => length row = inner) (map (drop (c * inner)) rows)).
  { apply Forall_fmap. eapply Forall_impl; [done|]. intros row Hrow. simpl in *.
    rewrite length_drop. lia. }
  exists (mk_ndarray (Z.of_nat r :: Z.of_nat c :: rest) (concat (map (take (c * inner)) rows))),
         (mk_ndarray (Z.of_nat r :: rest) (concat (map (drop (c * inner)) rows))).
  split.
  { unfold get_preqnt_dataset. rewrite Hpart. cbn [fmap option_fmap option_map mbind option_bind].
    unfold slice_but_last_column, slice_last_column.
    rewrite (astype_float32_array_exact part_data Hexact).
    change (nd_shape (astype_float32_array part_data)) with (nd_shape part_data).
    rewrite Hshape, !Nat2Z.id.
    replace (S c - 1)%nat with c by lia.
    replace (Z.max (Z.of_nat (S c) - 1) 0) with (Z.of_nat c) by lia.
    replace (Z.of_nat (S c) <=? 0)%Z with false by (symmetry; apply Z.leb_gt; lia).
    done. }
  cbn [nd_shape nd_data]. split; [done|]. split; [done|].
  split; [by rewrite (length_concat_uniform _ _ Hin), length_map, Hnrows|].
  split; [by rewrite (length_concat_uniform _ _ Hout), length_map, Hnrows|].
  pose proof (rows_of_concat _ _ Hin) as E1. rewrite length_map, Hnrows in E1.
  pose proof (rows_of_concat _ _ Hout) as E2. rewrite length_map, Hnrows in E2.
  rewrite E1, E2. apply zip_with_take_drop.
Qed.

Lemma get_preqnt_dataset_splits_rows_witness :
  ∃ part_data_in part_data_out,
    get_preqnt_dataset sample_archive false = Some (part_data_in, part_data_out)
    ∧ nd_shape part_data_in = Z.of_nat 2 :: Z.of_nat 3 :: []
    ∧ nd_shape part_data_out = Z.of_nat 2 :: []
    ∧ length (nd_data part_data_in) = (2 * (3 * block_size []))%nat
    ∧ length (nd_data part_data_out) = (2 * block_size [])%nat
    ∧ zip_with app (rows_of 2 (3 * block_size []) (nd_data part_data_in))
                   (rows_of 2 (block_size []) (nd_data part_data_out))
      = rows_of 2 (4 * block_size []) [1; 0; 1; 0; 0; 1; 1; 1]%Z.
Proof.
  apply (get_preqnt_dataset_splits_rows sample_archive false
           (mk_ndarray [2; 4]%Z [1; 0; 1; 0; 0; 1; 1; 1]%Z) 2 3 []).
  - reflexivity.
  - reflexivity.
  - reflexivity.
  - reflexivity.
Defined.

(** ** The verification loop *)

Section VerificationFacts.
Variable execute_onnx : ModelWrapper → gmap string ndarray → option (gmap string ndarray).
Variable model_for_sim : ModelWrapper.
Variable inference_with_brevitas : ndarray → option ndarray.
Variable truth_eq : ndarray → ndarray → option bool.
Variable truth_ne : ndarray → ndarray → option bool.

Local Abbreviation compare :=
  (compare_outputs execute_onnx model_for_sim inference_with_brevitas truth_eq truth_ne).
Local Abbreviation loop :=
  (verify_loop execute_onnx model_for_sim inference_with_brevitas truth_eq truth_ne).

Lemma verify_loop_S input_tensor (n : nat) :
  loop input_tensor (S n)
  = '(ok, nok) ← loop input_tensor n;
    '(is_eq, is_ne) ← compare input_tensor n;
    Some (ok + (if is_eq : bool then 1 else 0), nok + (if is_ne : bool then 1 else 0))%nat.
Proof. unfold verify_loop. by rewrite seq_S, foldl_app. Qed.

Lemma compare_outputs_negation input_tensor (i : nat) is_eq is_ne :
  (∀ a b, truth_ne a b = negb <$> truth_eq a b) →
  compare input_tensor i = Some (is_eq, is_ne) → is_ne = negb is_eq.
Proof.
  intros Hne. unfold compare_outputs.
  destruct (row_at input_tensor i) as [row|]; [|done]. simpl.
  destruct (reshape row _) as [inp|]; [|done]. simpl.
  destruct (inference_with_brevitas inp) as [b|]; [|done]. simpl.
  destruct (inference_with_finn_onnx _ _ inp) as [f|]; [|done]. simpl.
  rewrite Hne. destruct (truth_eq f b) as [e|]; [|done]. simpl. by intros [= <- <-].
Qed.

(** The loop completes exactly when every round does. *)
Lemma verify_loop_None input_tensor (n : nat) :
  loop input_tensor n = None ↔ ∃ i : nat, (i < n)%nat ∧ compare input_tensor i = None.
Proof.
  induction n as [|n IH].
  - split; [done|]. intros (i & Hi & _). lia.
  - rewrite verify_loop_S. split.
    + destruct (loop input_tensor n) as [[ok nok]|] eqn:Hloop.
      * simpl. destruct (compare input_tensor n) as [[e ne]|] eqn:Hcmp; [done|].
        intros _. exists n. split; [lia|done].
      * intros _. destruct (proj1 IH eq_refl) as (i & Hi & Hcmp).
        exists i. split; [lia|done].
    + intros (i & Hi & Hcmp). destruct (decide (i = n)) as [->|Hne].
      * rewrite Hcmp. by destruct (loop input_tensor n) as [[ok nok]|].
      * rewrite (proj2 IH); [done|]. exists i. split; [lia|done].
Qed.

(** X12. When the truth value of [!=] is the negation of that of [==], the
    counters of the verification loop add up to the number of rounds, and
    [ok] reaches that number, so that the final assertion holds, exactly
    when the two outputs compared equal in every round. *)
Theorem verify_loop_counts input_tensor (n ok nok : nat) :
  (∀ a b, truth_ne a b = negb <$> truth_eq a b) →
  verify_loop execute_onnx model_for_sim inference_with_brevitas truth_eq truth_ne
    input_tensor n = Some (ok, nok) →
  (ok + nok = n)%nat
  ∧ (ok = n ↔
     ∀ i : nat, (i < n)%nat →
       compare_outputs execute_onnx model_for_sim inference_with_brevitas truth_eq truth_ne
         input_tensor i = Some (true, false))
  ∧ verification_succeeded execute_onnx model_for_sim inference_with_brevitas
      truth_eq truth_ne input_tensor n = Some (bool_decide (nok = 0%nat)).
Proof.
  intros Hne Hloop.
  assert (Hmain : (ok + nok = n)%nat
    ∧ (ok = n ↔ ∀ i : nat, (i < n)%nat → compare input_tensor i = Some (true, false))).
  { revert ok nok Hloop. induction n as [|n IH]; intros ok nok Hloop.
    - injection Hloop as <- <-. split; [done|]. split; [intros _ i Hi; lia|done].
    - rewrite verify_loop_S in Hloop.
      destruct (loop input_tensor n) as [[ok' nok']|] eqn:Hprev; [|done].
      simpl in Hloop.
      destruct (compare input_tensor n) as [[e ne]|] eqn:Hcmp; [|done].
      simpl in Hloop. injection Hloop as <- <-.
      pose proof (compare_outputs_negation _ _ _ _ Hne Hcmp) as ->.
      destruct (IH ok' nok' eq_refl) as [Hsum Hall].
      split; [destruct e; simpl; lia|]. split.
      + intros Hok. destruct e; simpl in Hok; [|lia].
        assert (ok' = n) as Hok' by lia.
        intros i Hi. destruct (decide (i = n)) as [->|Hin]; [done|].
        apply (proj1 Hall Hok'). lia.
      + intros Hevery. rewrite (Hevery n) in Hcmp by lia.
        injection Hcmp as <-. simpl.
        rewrite (proj2 Hall); [lia|]. intros i Hi. apply Hevery. lia. }
  destruct Hmain as [Hsum Hall]. split; [done|]. split; [done|].
  unfold verification_succeeded. rewrite Hloop. simpl. f_equal.
  destruct (Nat.eqb_spec ok n) as [Heq|Hneq].
  - symmetry. apply bool_decide_eq_true. lia.
  - symmetry. apply bool_decide_eq_false. lia.
Qed.

(** X13. When [n_verification_inputs] exceeds the number [r] of rows of
    the input tensor and every round on an existing row completes, the loop
    completes [r] rounds and then stops in round [r] at [input_tensor[r]],
    the [IndexError] of an index past the end. *)
Theorem verify_loop_too_few_rows input_tensor (n : nat) r rest :
  nd_shape input_tensor = r :: rest →
  (0 ≤ r < Z.of_nat n)%Z →
  (∀ i : nat, (i < Z.to_nat r)%nat →
     compare_outputs execute_onnx model_for_sim inference_with_brevitas truth_eq truth_ne
       input_tensor i ≠ None) →
  is_Some (verify_loop execute_onnx model_for_sim inference_with_brevitas truth_eq truth_ne
             input_tensor (Z.to_nat r))
  ∧ row_at input_tensor (Z.to_nat r) = None
  ∧ verify_loop execute_onnx model_for_sim inference_with_brevitas truth_eq truth_ne
      input_tensor n = None.
Proof.
  intros Hshape Hr Hrounds.
  assert (Hrow : row_at input_tensor (Z.to_nat r) = None).
  { unfold row_at. rewrite Hshape.
    replace (Z.of_nat (Z.to_nat r) <? r)%Z with false; [done|].
    symmetry. apply Z.ltb_ge. lia. }
  split; [|split; [done|]].
  - apply not_eq_None_Some. intros (i & Hi & Hcmp)%verify_loop_None.
    by apply (Hrounds i Hi).
  - apply verify_loop_None. exists (Z.to_nat r). split; [lia|].
    unfold compare_outputs. by rewrite Hrow.
Qed.
End VerificationFacts.

Lemma verify_loop_counts_witness :
  (2 + 0 = 2)%nat
  ∧ (2%nat = 2%nat ↔
     ∀ i : nat, (i < 2)%nat →
       compare_outputs constant_executor mlp_interface constant_brevitas data_eq data_ne
         two_rows i = Some (true, false))
  ∧ verification_succeeded constant_executor mlp_interface constant_brevitas data_eq data_ne
      two_rows 2 = Some (bool_decide (0%nat = 0%nat)).
Proof.
  apply (verify_loop_counts constant_executor mlp_interface constant_brevitas data_eq data_ne
           two_rows 2 2 0).
  - intros a b. reflexivity.
  - vm_compute. reflexivity.
Defined.

Lemma verify_loop_too_few_rows_witness :
  is_Some (verify_loop constant_executor mlp_interface constant_brevitas data_eq data_ne
             two_rows (Z.to_nat 2))
  ∧ row_at two_rows (Z.to_nat 2) = None
  ∧ verify_loop constant_executor mlp_interface constant_brevitas data_eq data_ne
      two_rows 3 = None.
Proof.
  apply (verify_loop_too_few_rows constant_executor mlp_interface constant_brevitas
           data_eq data_ne two_rows 3 2%Z [593%Z]).
  - reflexivity.
  - lia.
  - intros i Hi. change (Z.to_nat 2) with 2%nat in Hi.
    destruct i as [|[|i]]; [vm_compute; discriminate|vm_compute; discriminate|lia].
Defined.

(** ** Removing a node that is not there *)

(** X14. When the pair has a first node and the dictionary knows its name,
    so that neither the [IndexError] nor the [KeyError] of cell 22 arises,
    cell 22 fails in its removal loop, with the [ValueError] of
    [graph.node.remove], whenever a node of the pair is neither a node of
    the graph nor equal to the node just inserted. *)
Theorem replace_pair_missing_node model g first rest new_node n (node_ind : nat) :
  get_node_id model !! name first = Some node_ind →
  n ∈ first :: rest → n ≠ new_node → n ∉ node g →
  foldl (fun acc n => l ← acc; list_remove_first n l)
        (Some (list_insert_at node_ind new_node (node g))) (first :: rest) = None
  ∧ replace_pair model g (first :: rest) new_node = None.
Proof.
  intros Hid Hn Hnew Hg.
  assert (Hloop : foldl (fun acc n => l ← acc; list_remove_first n l)
                    (Some (list_insert_at node_ind new_node (node g))) (first :: rest)
                  = None).
  { destruct (foldl _ _ (first :: rest)) as [l'|] eqn:Hfold; [|done].
    apply remove_all_Some in Hfold as [Hperm _].
    assert (n ∈ new_node :: node g) as Hin.
    { rewrite <- (list_insert_at_Permutation node_ind), <- Hperm.
      apply elem_of_app. by left. }
    apply elem_of_cons in Hin as [?|?]; done. }
  split; [done|].
  unfold replace_pair. cbn [lookup list_lookup mbind option_bind]. rewrite Hid.
  cbn [mbind option_bind]. by rewrite Hloop.
Qed.

Lemma replace_pair_missing_node_witness :
  foldl (fun acc n => l ← acc; list_remove_first n l)
        (Some (list_insert_at 0 fused_node (node simple_graph)))
        (Add1_node :: [Add2_twice_node]) = None
  ∧ replace_pair finn_model simple_graph (Add1_node :: [Add2_twice_node]) fused_node = None.
Proof.
  apply (replace_pair_missing_node finn_model simple_graph Add1_node [Add2_twice_node]
           fused_node Add2_twice_node 0).
  - vm_compute. reflexivity.
  - right. left.
  - discriminate.
  - vm_compute. intros Hin.
    repeat (apply elem_of_cons in Hin as [Heq|Hin]; [discriminate|]).
    by apply elem_of_nil in Hin.
Defined.

(** ** Truncating the test set *)

Section Truncation.
Variable execute_onnx : ModelWrapper → gmap string ndarray → option (gmap string ndarray).
Variable model_for_sim : ModelWrapper.
Variable inference_with_brevitas : ndarray → option ndarray.
Variable truth_eq : ndarray → ndarray → option bool.
Variable truth_ne : ndarray → ndarray → option bool.

Lemma row_at_take_rows a (n i : nat) (r : nat) rest taken :
  nd_shape a = Z.of_nat r :: rest →
  take_rows n a = Some taken →
  (i < n)%nat →
  row_at taken i = row_at a i.
Proof.
  intros Hshape Htake Hi. unfold take_rows in Htake. rewrite Hshape in Htake.
  injection Htake as <-. unfold row_at. rewrite Hshape. cbn [nd_shape nd_data].
  rewrite Nat2Z.id.
  destruct (Z.ltb_spec (Z.of_nat i) (Z.of_nat r)) as [Hlt|Hge].
  - replace (Z.of_nat i <? Z.min (Z.of_nat n) (Z.of_nat r))%Z with true
      by (symmetry; apply Z.ltb_lt; lia).
    do 2 f_equal. set (bs := block_size rest).
    assert ((i + 1) * bs ≤ (n `min` r) * bs)%nat as Hle
      by (apply Nat.mul_le_mono_r; lia).
    rewrite (take_drop_commute (nd_data a) bs (i * bs)).
    rewrite (take_drop_commute (take _ (nd_data a)) bs (i * bs)), take_take.
    do 2 f_equal. lia.
  - replace (Z.of_nat i <? Z.min (Z.of_nat n) (Z.of_nat r))%Z with false
      by (symmetry; apply Z.ltb_ge; lia).
    done.
Qed.

(** X15. Running the verification loop for [n] rounds on the first [n]
    samples of a tensor gives the same counters as running it on the whole
    tensor: the truncation of the test set changes nothing the loop sees. *)
Theorem verify_loop_on_truncation a (n : nat) (r : nat) rest taken :
  nd_shape a = Z.of_nat r :: rest →
  take_rows n a = Some taken →
  verify_loop execute_onnx model_for_sim inference_with_brevitas truth_eq truth_ne taken n
  = verify_loop execute_onnx model_for_sim inference_with_brevitas truth_eq truth_ne a n.
Proof.
  intros Hshape Htake. unfold verify_loop.
  assert (Hgen : ∀ (l : list nat) acc, Forall (fun i => i < n)%nat l →
    foldl (fun (acc : option (nat * nat)) (i : nat) =>
             '(ok, nok) ← acc;
             '(is_eq, is_ne) ← compare_outputs execute_onnx model_for_sim
                                 inference_with_brevitas truth_eq truth_ne taken i;
             Some (ok + (if is_eq : bool then 1 else 0),
                   nok + (if is_ne : bool then 1 else 0))%nat) acc l
    = foldl (fun (acc : option (nat * nat)) (i : nat) =>
             '(ok, nok) ← acc;
             '(is_eq, is_ne) ← compare_outputs execute_onnx model_for_sim
                                 inference_with_brevitas truth_eq truth_ne a i;
             Some (ok + (if is_eq : bool then 1 else 0),
                   nok + (if is_ne : bool then 1 else 0))%nat) acc l).
  { induction l as [|i l IH]; intros acc Hl; [done|].
    apply Forall_cons in Hl as [Hi Hl]. cbn [foldl].
    rewrite IH by done. do 2 f_equal.
    unfold compare_outputs.
    by rewrite (row_at_take_rows a n i r rest taken). }
  apply Hgen. apply Forall_forall. intros i Hi%elem_of_seq. lia.
Qed.
End Truncation.

Lemma verify_loop_on_truncation_witness :
  verify_loop constant_executor mlp_interface constant_brevitas data_eq data_ne
    (mk_ndarray [1; 593]%Z (replicate 593 1%Z)) 1
  = verify_loop constant_executor mlp_interface constant_brevitas data_eq data_ne two_rows 1.
Proof.
  apply (verify_loop_on_truncation constant_executor mlp_interface constant_brevitas
           data_eq data_ne two_rows 1 2 [593%Z]).
  - reflexivity.
  - vm_compute. reflexivity.
Defined.
